(** * LG sampling utilities: a shallow embedding and its properties

    The development follows the Python sources
    [py/sigmas_editor.py], [py/timestep_noise.py] and [py/noise_injection.py].

    Number model.  Python floats and the one-dimensional noise-level
    tensors ([sigmas], [timestep]) are exact rationals ([Q]), which keeps the
    scalar code executable.  The contents of latent tensors are real numbers
    ([R]), because [Tensor.std] takes a square root.  Rounding, infinities
    and NaN are outside the model; every division of the sources is guarded
    by a test that excludes a zero divisor, and the only operation that can
    produce NaN from finite data, the standard deviation of fewer than two
    elements, is given an explicit undefined result. *)

From Stdlib Require Import String.
From Stdlib Require Import List ZArith QArith Qabs Qreals Reals Psatz Lia
  Bool Arith.
Import ListNotations.
Close Scope R_scope.
Close Scope Q_scope.

(** ** Python control outcomes *)

Inductive exn : Type :=
  IndexError | TypeError | RuntimeError | OverflowError.

(** A call either returns, raises, or leaves the part of the libraries that
    this development describes ([Unmodelled]: no statement is made). *)
Inductive outcome (A : Type) : Type :=
| Returns (a : A)
| Raises (e : exn)
| Unmodelled.
Arguments Returns {A} a.
Arguments Raises {A} e.
Arguments Unmodelled {A}.

Definition bind {A B : Type} (m : outcome A) (k : A -> outcome B) : outcome B :=
  match m with
  | Returns a => k a
  | Raises e => Raises e
  | Unmodelled => Unmodelled
  end.

Notation "x <- m ;; k" := (bind m (fun x => k))
  (at level 61, m at next level, right associativity).

(** ** Python's two-argument [min] and [max] on floats *)

Definition Qlt_bool (a b : Q) : bool := negb (Qle_bool b a).

(** [min(a, b)]: the first argument unless the second is strictly smaller. *)
Definition py_min (a b : Q) : Q := if Qlt_bool b a then b else a.

(** [max(a, b)]: the first argument unless the second is strictly larger. *)
Definition py_max (a b : Q) : Q := if Qlt_bool a b then b else a.

(** ** The tensor operations the sources use *)

Module Torch.
Local Open Scope R_scope.

(** A dense tensor in row-major order. *)
Record Tensor : Type := { shape : list nat; data : list R }.

Definition dim (t : Tensor) : nat := List.length (shape t).

Definition numel (s : list nat) : nat := fold_right Nat.mul 1%nat s.

(** [t.unsqueeze(k)] *)
Definition unsqueeze (k : nat) (t : Tensor) : Tensor :=
  {| shape := firstn k (shape t) ++ 1%nat :: skipn k (shape t); data := data t |}.

Fixpoint chunks (k size : nat) (l : list R) : list (list R) :=
  match k with
  | O => []
  | S k' => firstn size l :: chunks k' size (skipn size l)
  end.

Definition pad (rank : nat) (s : list nat) : list nat :=
  repeat 1%nat (rank - List.length s) ++ s.

(** Broadcast of two shapes of the same rank. *)
Fixpoint broadcast_shapes (a b : list nat) : option (list nat) :=
  match a, b with
  | [], [] => Some []
  | x :: a', y :: b' =>
      match broadcast_shapes a' b' with
      | Some s =>
          if Nat.eqb x y then Some (x :: s)
          else if Nat.eqb x 1 then Some (y :: s)
          else if Nat.eqb y 1 then Some (x :: s)
          else None
      | None => None
      end
  | _, _ => None
  end.

(** The data of a tensor of shape [src] seen at the broadcast shape [tgt]. *)
Fixpoint expand_data (src tgt : list nat) (d : list R) : list R :=
  match src, tgt with
  | s :: src', t :: tgt' =>
      let parts := map (expand_data src' tgt') (chunks s (numel src') d) in
      if Nat.eqb s t then concat parts else concat (repeat (concat parts) t)
  | _, _ => d
  end.

(** An elementwise binary operation with broadcasting; incompatible shapes
    raise. *)
Definition binop (f : R -> R -> R) (a b : Tensor) : outcome Tensor :=
  let rank := Nat.max (dim a) (dim b) in
  let sa := pad rank (shape a) in
  let sb := pad rank (shape b) in
  match broadcast_shapes sa sb with
  | Some s =>
      Returns {| shape := s;
                 data := map (fun p => f (fst p) (snd p))
                             (combine (expand_data sa s (data a))
                                      (expand_data sb s (data b))) |}
  | None => Raises RuntimeError
  end.

Definition add := binop Rplus.
Definition sub := binop Rminus.
Definition mul := binop Rmult.

(** [t * k] for a scalar [k]. *)
Definition scale (t : Tensor) (k : R) : Tensor :=
  {| shape := shape t; data := map (fun x => x * k) (data t) |}.

(** [k * t] for a scalar [k]. *)
Definition lscale (k : R) (t : Tensor) : Tensor :=
  {| shape := shape t; data := map (fun x => k * x) (data t) |}.

(** [k - t] for a scalar [k]. *)
Definition rsub (k : R) (t : Tensor) : Tensor :=
  {| shape := shape t; data := map (fun x => k - x) (data t) |}.

(** [t.expand(b, -1, -1, -1)].  On four dimensions the first one must be 1
    (the samples are repeated) or [b] already; on three dimensions a new
    first dimension of size [b] is put in front; any other rank raises, a
    lower one because [-1] cannot size a new dimension, a higher one because
    four sizes are too few. *)
Definition expand_batch (b : nat) (t : Tensor) : outcome Tensor :=
  match shape t with
  | [s; c; h; w] =>
      if Nat.eqb s 1
      then Returns {| shape := [b; c; h; w];
                      data := concat (repeat (data t) b) |}
      else if Nat.eqb s b then Returns t
      else Raises RuntimeError
  | [c; h; w] =>
      Returns {| shape := [b; c; h; w];
                 data := concat (repeat (data t) b) |}
  | _ => Raises RuntimeError
  end.

(** [t[:b]] *)
Definition truncate_batch (b : nat) (t : Tensor) : Tensor :=
  {| shape := Nat.min b (hd 0%nat (shape t)) :: tl (shape t);
     data := firstn (b * numel (tl (shape t))) (data t) |}.

Definition sum (l : list R) : R := fold_right Rplus 0 l.

Definition mean (l : list R) : R := sum l / INR (List.length l).

Definition sq_dev (m x : R) : R := (x - m) * (x - m).

(** [t.std()]: the sample standard deviation (Bessel's correction) of all
    elements; [None] stands for the NaN torch gives below two elements. *)
Definition std_list (l : list R) : option R :=
  if Nat.ltb (List.length l) 2 then None
  else Some (sqrt (sum (map (sq_dev (mean l)) l) / INR (List.length l - 1))).

Definition std (t : Tensor) : option R := std_list (data t).

(** [t.shape[i]] *)
Definition shape_at (t : Tensor) (i : nat) : outcome nat :=
  match nth_error (shape t) i with
  | Some n => Returns n
  | None => Raises IndexError
  end.

(** The [timestep] tensor: zero- or one-dimensional with at least one
    element, holding noise levels; [first] is what [float(timestep[0])]
    reads. *)
Record Timestep : Type := { first : Q; rest : list Q }.

Definition tmap (f : Q -> Q) (t : Timestep) : Timestep :=
  {| first := f (first t); rest := map f (rest t) |}.

End Torch.

(** ** [py/sigmas_editor.py] *)

Module SigmasEditor.
Local Open Scope Q_scope.

(** The value [json.loads] produces.  A Python dict has distinct keys, so an
    object is listed by its (distinct) keys. *)
#[warnings="-register-all"] Inductive json : Type :=
| JNull
| JBool (b : bool)
| JNum (q : Q)
| JStr (s : string)
| JArr (l : list json)
| JObj (l : list (string * json)).

(** [try: adjusted_values = json.loads(s) / except: adjusted_values = []].
    The argument is what [json.loads] did: [None] when it raised. *)
Definition adjusted_values_of (loaded : option json) : json :=
  match loaded with
  | Some v => v
  | None => JArr []
  end.

(** Python's [len]. *)
Definition len (v : json) : outcome nat :=
  match v with
  | JArr l => Returns (List.length l)
  | JStr s => Returns (String.length s)
  | JObj l => Returns (List.length l)
  | JNull | JBool _ | JNum _ => Raises TypeError
  end.

Fixpoint numbers (l : list json) : option (list Q) :=
  match l with
  | [] => Some []
  | JNum q :: l' => option_map (cons q) (numbers l')
  | _ :: _ => None
  end.

(** The magnitude from which the conversion of a Python integer to a double
    overflows: [2^1024 - 2^970], the midpoint above the largest double. *)
Definition double_overflow : Q := inject_Z (2 ^ 1024 - 2 ^ 970).

(** The number does not convert to a double.  A number of that magnitude is
    an integer literal: a float literal of that magnitude parses to
    infinity, which [JNum] does not hold. *)
Definition overflows (q : Q) : bool := Qle_bool double_overflow (Qabs q).

(** [np.array(v, dtype=np.float64)] on a list of numbers: it raises
    [OverflowError] for an integer beyond the range of a double.  numpy's
    treatment of other values (booleans, nested lists, numeric strings, ...)
    is not described. *)
Definition np_array_float64 (v : json) : outcome (list Q) :=
  match v with
  | JArr l => match numbers l with
              | Some qs =>
                  if existsb overflows qs then Raises OverflowError
                  else Returns qs
              | None => Unmodelled
              end
  | _ => Unmodelled
  end.

(** [a[-1]] *)
Definition last_item (a : list Q) : outcome Q :=
  match a with
  | [] => Raises IndexError
  | x :: a' => Returns (last a' x)
  end.

(** [a[-1] = v] *)
Definition set_last_item (a : list Q) (v : Q) : outcome (list Q) :=
  match a with
  | [] => Raises IndexError
  | _ :: _ => Returns (removelast a ++ [v])
  end.

(** The message sent to the front end. *)
Record update_msg : Type := {
  node_id : string;
  original : list Q;
  adjusted : list Q
}.

Fixpoint tuple_eqb (a b : list Q) : bool :=
  match a, b with
  | [], [] => true
  | x :: a', y :: b' => Qeq_bool x y && tuple_eqb a' b'
  | _, _ => false
  end.

(** [_last_sent_data]: the class-level dict, newest binding first. *)
Definition cache : Type := list (string * list Q).

Fixpoint get (c : cache) (k : string) : option (list Q) :=
  match c with
  | [] => None
  | (k', v) :: c' => if String.eqb k k' then Some v else get c' k
  end.

Definition differs (last_key : option (list Q)) (key : list Q) : bool :=
  match last_key with
  | None => true
  | Some k => negb (tuple_eqb k key)
  end.

(** [result_tensor] is [torch.FloatTensor(adjusted_sigmas)]: the narrowing
    to single precision is a rounding, which the number model leaves out. *)
Record result : Type := {
  result_tensor : list Q;
  sent : list update_msg;
  last_sent_data : cache
}.

(** [SigmasEditor.adjust_sigmas]; [loaded] is the outcome of
    [json.loads(sigmas_adjustments)]. *)
Definition adjust_sigmas (last_sent : cache) (sigmas : list Q)
    (loaded : option json) (unique_id : option string) : outcome result :=
  let sigmas_np := sigmas in
  let adjusted_values := adjusted_values_of loaded in
  n <- len adjusted_values ;;
  adjusted_sigmas <-
    (if negb (Nat.eqb n (List.length sigmas_np))
     then Returns sigmas_np
     else np_array_float64 adjusted_values) ;;
  final <- last_item sigmas_np ;;
  adjusted_sigmas <-
    (if Qeq_bool final 0
     then set_last_item adjusted_sigmas 0
     else Returns adjusted_sigmas) ;;
  match unique_id with
  | Some uid =>
      if differs (get last_sent uid) sigmas_np
      then Returns {| result_tensor := adjusted_sigmas;
                      sent := [ {| node_id := uid;
                                   original := sigmas_np;
                                   adjusted := adjusted_sigmas |} ];
                      last_sent_data := (uid, sigmas_np) :: last_sent |}
      else Returns {| result_tensor := adjusted_sigmas;
                      sent := [];
                      last_sent_data := last_sent |}
  | None => Returns {| result_tensor := adjusted_sigmas;
                       sent := [];
                       last_sent_data := last_sent |}
  end.

End SigmasEditor.

(** ** [py/timestep_noise.py] *)

Module TimestepNoise.
Import Torch.
Local Open Scope Q_scope.

(** [mode]: the two entries of the node's choice list. *)
Inductive Mode : Type := sigma | flow.

(** [diff < min_diff], where [None] is [float('inf')]. *)
Definition below (diff : Q) (min_diff : option Q) : bool :=
  match min_diff with
  | None => true
  | Some m => Qlt_bool diff m
  end.

(** The loop [for i, s in enumerate(stored_sigmas)], from index [i] on. *)
Fixpoint scan (sigmas : list Q) (sigma_val : Q) (i : nat)
    (min_diff : option Q) (matched_idx : nat) : nat :=
  match sigmas with
  | [] => matched_idx
  | s :: sigmas' =>
      let diff := Qabs (s - sigma_val) in
      if below diff min_diff
      then scan sigmas' sigma_val (S i) (Some diff) i
      else scan sigmas' sigma_val (S i) min_diff matched_idx
  end.

Definition matched_idx (stored_sigmas : list Q) (sigma_val : Q) : nat :=
  scan stored_sigmas sigma_val 0 None 0.

(** [total_steps = len(sigma_list) - 1] *)
Definition total_steps (sigma_list : list Q) : Z :=
  (Z.of_nat (List.length sigma_list) - 1)%Z.

Definition progress_of (matched : nat) (stored_total_steps : Z) : Q :=
  let progress :=
    if (0 <? stored_total_steps)%Z
    then inject_Z (Z.of_nat matched) / inject_Z stored_total_steps
    else 0 in
  py_max 0 (py_min 1 progress).

(** [torch.clamp(x, 0.0, 1.0)] on one element *)
Definition clamp01 (x : Q) : Q :=
  if Qlt_bool x 0 then 0 else if Qlt_bool 1 x then 1 else x.

(** The sigma-mode factor for the draw [raw]. *)
Definition noise_factor (stored_strength raw : Q) : Q :=
  1 + (raw - (1#2)) * stored_strength.

Definition headroom_up (t_orig : Q) : Q := 1 - t_orig.
Definition headroom_down (t_orig : Q) : Q := t_orig - 0.

(** The flow-mode offset for the draw [raw]; [1 # 1000000] is [1e-6]. *)
Definition actual_delta (stored_strength t_orig raw : Q) : Q :=
  let actual_up := py_min stored_strength (headroom_up t_orig) in
  let actual_down := py_min stored_strength (headroom_down t_orig) in
  let total_range := actual_down + actual_up in
  if Qlt_bool (1 # 1000000) total_range
  then raw * total_range - actual_down
  else 0.

Definition noisy_timestep (stored_mode : Mode) (stored_strength raw : Q)
    (timestep : Timestep) : Timestep :=
  let t_orig := first timestep in
  match stored_mode with
  | sigma => tmap (fun t => t * noise_factor stored_strength raw) timestep
  | flow =>
      tmap (fun t => clamp01 (t + actual_delta stored_strength t_orig raw))
           timestep
  end.

(** What the wrapper's function closes over. *)
Record Closure : Type := {
  stored_mode : Mode;
  stored_strength : Q;
  stored_seed : Z;
  stored_start : Q;
  stored_end : Q;
  stored_sigmas : list Q;
  stored_total_steps : Z;
  stored_mask : option Tensor;
  step_counter : nat
}.

(** [step_counter[0] += 1] *)
Definition tick (k : Closure) : Closure :=
  {| stored_mode := stored_mode k;
     stored_strength := stored_strength k;
     stored_seed := stored_seed k;
     stored_start := stored_start k;
     stored_end := stored_end k;
     stored_sigmas := stored_sigmas k;
     stored_total_steps := stored_total_steps k;
     stored_mask := stored_mask k;
     step_counter := S (step_counter k) |}.

(** The two [logging.info] lines of one step. *)
Record StepLog : Type := {
  log_step : nat;
  log_total_steps : Z;
  log_progress : Q;
  log_range : Q * Q;
  log_applied : bool;
  log_t_orig : Q;
  log_t_noisy : Q;
  log_delta : Q;
  log_has_mask : bool
}.

(** [timestep.device], on which the generator is created. *)
Inductive Device : Type := cpu | cuda (index : nat).

(** [generator.manual_seed(seed)]: the seed must lie in
    [-0x8000_0000_0000_0000, 0xffff_ffff_ffff_ffff]. *)
Definition manual_seed (seed : Z) : outcome unit :=
  if ((- 2 ^ 63 <=? seed) && (seed <=? 2 ^ 64 - 1))%Z
  then Returns tt
  else Raises RuntimeError.

Section Draw.

(** [torch.rand(1, generator=g).item()] for a generator of one device,
    seeded with the argument. *)
Variable rand : Z -> Q.

(** The perturbed timestep of the step numbered [current_step]. *)
Definition perturbed (k : Closure) (current_step : nat) (timestep : Timestep)
    : Timestep :=
  noisy_timestep (stored_mode k) (stored_strength k)
    (rand (stored_seed k + Z.of_nat current_step)%Z) timestep.

End Draw.

Section Wrapper.

(** The conditioning keyword arguments. *)
Variable C : Type.

(** [torch.rand(1, generator=g).item()] for a generator created on the
    given device and seeded with the given value. *)
Variable rand : Device -> Z -> Q.

(** [F.interpolate(t, size=size, mode='bilinear', align_corners=False)] *)
Variable interpolate : Tensor -> list nat -> Tensor.

(** [device] is [timestep.device]. *)
Record Args : Type := {
  input : Tensor;
  timestep : Timestep;
  device : Device;
  c : C
}.

Definition prepare_mask (stored_mask : option Tensor) (input_x : Tensor)
    : outcome (option Tensor) :=
  match stored_mask with
  | None => Returns None
  | Some mask_tensor =>
      let mask_tensor :=
        if Nat.eqb (dim mask_tensor) 2 then unsqueeze 0 mask_tensor
        else mask_tensor in
      latent_h <- shape_at input_x 2 ;;
      latent_w <- shape_at input_x 3 ;;
      let latent_mask :=
        interpolate (unsqueeze 1 mask_tensor) [latent_h; latent_w] in
      b <- shape_at latent_mask 0 ;;
      bx <- shape_at input_x 0 ;;
      if Nat.eqb b 1 && Nat.ltb 1 bx
      then latent_mask <- expand_batch bx latent_mask ;;
           Returns (Some latent_mask)
      else Returns (Some latent_mask)
  end.

(** [result_original * (1 - latent_mask) + result_noisy * latent_mask] *)
Definition blend (result_original result_noisy latent_mask : Tensor)
    : outcome Tensor :=
  a <- mul result_original (rsub 1%R latent_mask) ;;
  b <- mul result_noisy latent_mask ;;
  add a b.

(** [unet_wrapper]: the closure after the call, the lines logged, and the
    result. *)
Definition unet_wrapper (k : Closure)
    (apply_model_func : Tensor -> Timestep -> C -> Tensor) (args : Args)
    : Closure * list StepLog * outcome Tensor :=
  let input_x := input args in
  let timestep := timestep args in
  let c := c args in
  let k' := tick k in
  let current_step := step_counter k' in
  let sigma_val := first timestep in
  let matched := matched_idx (stored_sigmas k) sigma_val in
  let progress := progress_of matched (stored_total_steps k) in
  let in_range :=
    Qle_bool (stored_start k) progress && Qle_bool progress (stored_end k) in
  match
    latent_mask <- prepare_mask (stored_mask k) input_x ;;
    _ <- manual_seed (stored_seed k + Z.of_nat current_step) ;;
    Returns latent_mask
  with
  | Raises e => (k', [], Raises e)
  | Unmodelled => (k', [], Unmodelled)
  | Returns latent_mask =>
      let t_orig := first timestep in
      let noisy := perturbed (rand (device args)) k current_step timestep in
      let t_noisy := first noisy in
      let logs :=
        if Nat.leb current_step 5
        then [ {| log_step := current_step;
                  log_total_steps := stored_total_steps k;
                  log_progress := progress;
                  log_range := (stored_start k, stored_end k);
                  log_applied := in_range;
                  log_t_orig := t_orig;
                  log_t_noisy := t_noisy;
                  log_delta := t_noisy - t_orig;
                  log_has_mask := match latent_mask with
                                  | Some _ => true
                                  | None => false
                                  end |} ]
        else [] in
      if negb in_range
      then (k', logs, Returns (apply_model_func input_x timestep c))
      else
        match latent_mask with
        | Some m =>
            (k', logs,
             blend (apply_model_func input_x timestep c)
                   (apply_model_func input_x noisy c) m)
        | None => (k', logs, Returns (apply_model_func input_x noisy c))
        end
  end.

End Wrapper.

End TimestepNoise.

(** ** [py/noise_injection.py] *)

Module NoiseInjection.
Import Torch.
Local Open Scope Q_scope.

(** The two node classes share the algorithm; they differ in the source of
    the reference and in the labels they log. *)
Inductive Variant : Type := FeatureInj | FeatureInjLatent.

(** What [cfg_function] closes over. *)
Record Closure : Type := {
  variant : Variant;
  ref_latent : Tensor;
  mask_latent : option Tensor;
  strength : Q;
  start_percent : Q;
  end_percent : Q;
  step_counter : nat
}.

(** [step_counter[0] += 1] *)
Definition tick (k : Closure) : Closure :=
  {| variant := variant k;
     ref_latent := ref_latent k;
     mask_latent := mask_latent k;
     strength := strength k;
     start_percent := start_percent k;
     end_percent := end_percent k;
     step_counter := S (step_counter k) |}.

Record Args : Type := {
  cond : Tensor;
  uncond : Tensor;
  cond_scale : Q;
  timestep : Timestep
}.

(** The [logging.warning] line of one step. *)
Record StepLog : Type := {
  log_variant : Variant;
  log_step : nat;
  log_progress : Q;
  log_eff_str : Q;
  log_with_mask : bool
}.

(** [uncond + cond_scale * (cond - uncond)] *)
Definition cfg_merge (uncond : Tensor) (cond_scale : Q) (cond : Tensor)
    : outcome Tensor :=
  d <- sub cond uncond ;;
  add uncond (lscale (Q2R cond_scale) d).

(** [progress = 1.0 - min(sigma, 1.0)] *)
Definition progress_of (sigma : Q) : Q := 1 - py_min sigma 1.

(** [progress < start_percent or progress > end_percent] *)
Definition outside (progress start_percent end_percent : Q) : bool :=
  Qlt_bool progress start_percent || Qlt_bool end_percent progress.

Definition decay (start_percent end_percent progress : Q) : Q :=
  if Qlt_bool start_percent end_percent
  then
    let range_progress :=
      (progress - start_percent) / (end_percent - start_percent) in
    1 - range_progress
  else 1.

Definition effective_strength (strength start_percent end_percent progress : Q)
    : Q :=
  strength * decay start_percent end_percent progress.

Definition shape_eqb (a b : list nat) : bool :=
  if list_eq_dec Nat.eq_dec a b then true else false.

(** The magnitude control: [if feature_std > cfg_std * 3: ...]; a comparison
    with an undefined deviation is false. *)
Definition clamp_direction (feature_direction cfg_result : Tensor) : Tensor :=
  match std cfg_result, std feature_direction with
  | Some cfg_std, Some feature_std =>
      if Rlt_dec (cfg_std * 3) feature_std
      then scale feature_direction (cfg_std * 3 / feature_std)
      else feature_direction
  | _, _ => feature_direction
  end.

Section Hook.

(** [F.interpolate(t, size=size, mode='bilinear', align_corners=False)] *)
Variable interpolate : Tensor -> list nat -> Tensor.

(** Resize to the spatial size of [cfg_result], then fit the batch size.
    The move [.to(device=..., dtype=...)] changes no value in this number
    model. *)
Definition align (t cfg_result : Tensor) : outcome Tensor :=
  let t :=
    if negb (shape_eqb (skipn 2 (shape t)) (skipn 2 (shape cfg_result)))
    then interpolate t (skipn 2 (shape cfg_result))
    else t in
  b <- shape_at t 0 ;;
  bx <- shape_at cfg_result 0 ;;
  if negb (Nat.eqb b bx)
  then if Nat.eqb b 1 then expand_batch bx t
       else Returns (truncate_batch bx t)
  else Returns t.

Definition align_mask (mask_latent : option Tensor) (cfg_result : Tensor)
    : outcome (option Tensor) :=
  match mask_latent with
  | None => Returns None
  | Some m => current_mask <- align m cfg_result ;; Returns (Some current_mask)
  end.

Definition apply_mask (feature_direction : Tensor)
    (current_mask : option Tensor) : outcome Tensor :=
  match current_mask with
  | Some m => mul feature_direction m
  | None => Returns feature_direction
  end.

(** The part of [cfg_function] after the range test. *)
Definition inject (k : Closure) (current_step : nat) (progress : Q)
    (cfg_result : Tensor) : outcome (Tensor * list StepLog) :=
  ref <- align (ref_latent k) cfg_result ;;
  current_mask <- align_mask (mask_latent k) cfg_result ;;
  let eff :=
    effective_strength (strength k) (start_percent k) (end_percent k)
      progress in
  feature_direction <- sub ref cfg_result ;;
  let feature_direction := clamp_direction feature_direction cfg_result in
  feature_direction <- apply_mask feature_direction current_mask ;;
  injected <- add cfg_result (scale feature_direction (Q2R eff)) ;;
  Returns (injected,
           if Nat.leb current_step 3
           then [ {| log_variant := variant k;
                     log_step := current_step;
                     log_progress := progress;
                     log_eff_str := eff;
                     log_with_mask := match current_mask with
                                      | Some _ => true
                                      | None => false
                                      end |} ]
           else []).

(** [cfg_function]: the closure after the call, and the result with the
    lines logged on the way to it. *)
Definition cfg_function (k : Closure) (args : Args)
    : Closure * outcome (Tensor * list StepLog) :=
  let k' := tick k in
  (k',
   cfg_result <- cfg_merge (uncond args) (cond_scale args) (cond args) ;;
   let sigma := first (timestep args) in
   let progress := progress_of sigma in
   if outside progress (start_percent k) (end_percent k)
   then Returns (cfg_result, [])
   else inject k (step_counter k') progress cfg_result).

End Hook.

(** [LGNoiseInjection._prepare_mask] *)
Definition _prepare_mask (mask : Tensor) : Tensor :=
  let mask := if Nat.eqb (dim mask) 2 then unsqueeze 0 mask else mask in
  unsqueeze 1 mask.

(** [LGNoiseInjectionLatent._prepare_mask] *)
Definition _prepare_mask_latent (mask : Tensor) : Tensor :=
  let mask := if Nat.eqb (dim mask) 2 then unsqueeze 0 mask else mask in
  if Nat.eqb (dim mask) 3 then unsqueeze 1 mask else mask.

End NoiseInjection.

(** ** The host's model handle, as far as this package uses it

    The handle and the sampler belong to the host, not to this package; they
    are described here by what the package relies on: [clone] copies the
    handle, the two setters fill one option slot each, and the sampler calls
    an installed function in place of its default. *)

Module Comfy.
Import Torch.

(** The two option slots this package sets on a model handle. *)
Record ModelPatcher : Type := {
  sampler_cfg_function : option NoiseInjection.Closure;
  model_function_wrapper : option TimestepNoise.Closure
}.

(** [model.clone()]: a new handle with the same options. *)
Definition clone (model : ModelPatcher) : ModelPatcher :=
  {| sampler_cfg_function := sampler_cfg_function model;
     model_function_wrapper := model_function_wrapper model |}.

Definition set_model_sampler_cfg_function (m : ModelPatcher)
    (k : NoiseInjection.Closure) : ModelPatcher :=
  {| sampler_cfg_function := Some k;
     model_function_wrapper := model_function_wrapper m |}.

Definition set_model_unet_function_wrapper (m : ModelPatcher)
    (k : TimestepNoise.Closure) : ModelPatcher :=
  {| sampler_cfg_function := sampler_cfg_function m;
     model_function_wrapper := Some k |}.

Section Sampler.

Variable C : Type.
Variable rand : TimestepNoise.Device -> Z -> Q.
Variable interpolate : Tensor -> list nat -> Tensor.

(** The sampler's guidance output for one step: the installed function if
    there is one, the plain merge otherwise. *)
Definition guidance (m : ModelPatcher) (args : NoiseInjection.Args)
    : ModelPatcher * outcome Tensor :=
  match sampler_cfg_function m with
  | Some k =>
      let (k', r) := NoiseInjection.cfg_function interpolate k args in
      (set_model_sampler_cfg_function m k',
       x <- r ;; Returns (fst x))
  | None =>
      (m, NoiseInjection.cfg_merge (NoiseInjection.uncond args)
            (NoiseInjection.cond_scale args) (NoiseInjection.cond args))
  end.

(** The sampler's call of the denoising function for one step: through the
    installed wrapper if there is one, directly otherwise. *)
Definition denoise (m : ModelPatcher)
    (apply_model_func : Tensor -> Timestep -> C -> Tensor)
    (args : TimestepNoise.Args C) : ModelPatcher * outcome Tensor :=
  match model_function_wrapper m with
  | Some k =>
      let '(k', _, r) :=
        TimestepNoise.unet_wrapper C rand interpolate k apply_model_func args in
      (set_model_unet_function_wrapper m k', r)
  | None =>
      (m, Returns (apply_model_func (TimestepNoise.input C args)
                     (TimestepNoise.timestep C args) (TimestepNoise.c C args)))
  end.

End Sampler.
End Comfy.

(** ** The node classes *)

Module LGNoiseInjection.
Import Torch Comfy NoiseInjection.
Local Open Scope Q_scope.

Section Node.

Variables VAE IMAGE : Type.

(** [vae.encode] followed by [Flux().process_in]. *)
Variable _encode_reference : VAE -> IMAGE -> Tensor.

Definition apply (model : ModelPatcher) (vae : VAE) (reference_image : IMAGE)
    (strength start_percent end_percent : Q) (mask : option Tensor)
    : ModelPatcher :=
  if Qle_bool strength 0 then model
  else
    let m := clone model in
    let ref_latent := _encode_reference vae reference_image in
    let mask_latent := option_map _prepare_mask mask in
    set_model_sampler_cfg_function m
      {| variant := FeatureInj;
         ref_latent := ref_latent;
         mask_latent := mask_latent;
         strength := strength;
         start_percent := start_percent;
         end_percent := end_percent;
         step_counter := 0 |}.

End Node.
End LGNoiseInjection.

Module LGNoiseInjectionLatent.
Import Torch Comfy NoiseInjection.
Local Open Scope Q_scope.

(** The latent structure: ["samples"] and, when present, ["noise_mask"]. *)
Record LATENT : Type := { samples : Tensor; noise_mask : option Tensor }.

Definition apply (model : ModelPatcher) (reference_latent : LATENT)
    (strength start_percent end_percent : Q) : ModelPatcher :=
  if Qle_bool strength 0 then model
  else
    let m := clone model in
    let ref_latent := samples reference_latent in
    let mask_latent :=
      option_map _prepare_mask_latent (noise_mask reference_latent) in
    set_model_sampler_cfg_function m
      {| variant := FeatureInjLatent;
         ref_latent := ref_latent;
         mask_latent := mask_latent;
         strength := strength;
         start_percent := start_percent;
         end_percent := end_percent;
         step_counter := 0 |}.

End LGNoiseInjectionLatent.

Module ZImageTimestepNoise.
Import Torch Comfy TimestepNoise.
Local Open Scope Q_scope.

Definition patch (model : ModelPatcher) (sigmas : list Q) (mode : Mode)
    (noise_strength : Q) (seed : Z) (start_percent end_percent : Q)
    (mask : option Tensor) : ModelPatcher :=
  let m := clone model in
  if Qle_bool noise_strength 0 then m
  else
    let sigma_list := sigmas in
    set_model_unet_function_wrapper m
      {| stored_mode := mode;
         stored_strength := noise_strength;
         stored_seed := seed;
         stored_start := start_percent;
         stored_end := end_percent;
         stored_sigmas := sigma_list;
         stored_total_steps := total_steps sigma_list;
         stored_mask := mask;
         step_counter := 0 |}.

End ZImageTimestepNoise.

(** ** Runs of the guidance hook *)

Module InjectionRun.
Import Torch NoiseInjection.

Section Run.
Variable interpolate : Tensor -> list nat -> Tensor.

(** The sampler calls the hook once per step; the closure carries the
    counter from one call to the next. *)
Fixpoint run (k : Closure) (steps : list Args)
    : list (outcome (Tensor * list StepLog)) :=
  match steps with
  | [] => []
  | args :: steps' =>
      let (k', r) := cfg_function interpolate k args in
      r :: run k' steps'
  end.

End Run.

(** The lines one call logged: those on the way to its result, none when it
    raised before the logging statement. *)
Definition emitted (r : outcome (Tensor * list StepLog)) : list StepLog :=
  match r with
  | Returns x => snd x
  | _ => []
  end.

(** The tensor one call returned. *)
Definition output (r : outcome (Tensor * list StepLog)) : outcome Tensor :=
  x <- r ;; Returns (fst x).

(** The reading of the logging rule that counts calls only: among the calls
    of a run, exactly the first three log, one line each. *)
Definition logs_by_count (logged : list (list StepLog)) : Prop :=
  forall i lines, nth_error logged i = Some lines ->
    (i < 3 -> List.length lines = 1) /\ (3 <= i -> lines = []).

End InjectionRun.

(** ** The editor's fallback and pinning rules, as statements *)

Module EditorClaims.
Import SigmasEditor.
Local Open Scope Q_scope.

(** The adjustment string did not parse, or parsed to a list of another
    length than the schedule. *)
Definition unusable (sigmas : list Q) (loaded : option json) : Prop :=
  loaded = None \/
  exists l, loaded = Some (JArr l) /\ List.length l <> List.length sigmas.

(** The call returns the schedule it was given, element for element. *)
Definition returns_original (sigmas : list Q) (loaded : option json) : Prop :=
  forall last_sent unique_id,
  exists r, adjust_sigmas last_sent sigmas loaded unique_id = Returns r /\
            Forall2 Qeq (result_tensor r) sigmas.





End EditorClaims.

(** ** The injector's closure at a given call count *)

Module InjectionSteps.
Import Torch NoiseInjection.

(** The closure of an attachment after [n] calls. *)
Definition at_step (k : Closure) (n : nat) : Closure :=
  {| variant := variant k;
     ref_latent := ref_latent k;
     mask_latent := mask_latent k;
     strength := strength k;
     start_percent := start_percent k;
     end_percent := end_percent k;
     step_counter := n |}.

Definition has_mask (k : Closure) : bool :=
  match mask_latent k with
  | Some _ => true
  | None => false
  end.

(** The line the call numbered [current_step] logs at progress [progress]. *)
Definition line (k : Closure) (current_step : nat) (progress : Q) : StepLog :=
  {| log_variant := variant k;
     log_step := current_step;
     log_progress := progress;
     log_eff_str :=
       effective_strength (strength k) (start_percent k) (end_percent k)
         progress;
     log_with_mask := has_mask k |}.

End InjectionSteps.

(** ** A sample attachment and its steps *)

Module Examples.
Import Torch NoiseInjection.
Local Open Scope Q_scope.

(** A one-sample latent with two elements. *)
Definition sample (a b : R) : Tensor :=
  {| shape := [1; 1; 1; 2]%nat; data := [a; b] |}.

(** The injector attached with strength 0.2 on the window [0.5, 1]. *)
Definition late_window : Comfy.ModelPatcher :=
  LGNoiseInjectionLatent.apply
    {| Comfy.sampler_cfg_function := None;
       Comfy.model_function_wrapper := None |}
    {| LGNoiseInjectionLatent.samples := sample 2 2;
       LGNoiseInjectionLatent.noise_mask := None |}
    (1 # 5) (1 # 2) 1.

(** The closure that attachment installs. *)
Definition late_closure : Closure :=
  {| variant := FeatureInjLatent; ref_latent := sample 2 2;
     mask_latent := None; strength := 1 # 5;
     start_percent := 1 # 2; end_percent := 1;
     step_counter := 0 |}.

(** A step at noise level [sigma]. *)
Definition step_at (sigma : Q) : Args :=
  {| cond := sample 1 3; uncond := sample 0 1; cond_scale := 7;
     timestep := {| first := sigma; rest := [] |} |}.

End Examples.

(** ** The two halves of [adjust_sigmas] *)

Module EditorParts.
Import SigmasEditor.
Local Open Scope Q_scope.

(** Lines 48-71: the adjusted schedule. *)
Definition adjusted_schedule (sigmas : list Q) (loaded : option json)
    : outcome (list Q) :=
  n <- len (adjusted_values_of loaded) ;;
  adjusted_sigmas <-
    (if negb (Nat.eqb n (List.length sigmas))
     then Returns sigmas
     else np_array_float64 (adjusted_values_of loaded)) ;;
  final <- last_item sigmas ;;
  if Qeq_bool final 0
  then set_last_item adjusted_sigmas 0
  else Returns adjusted_sigmas.

(** Lines 73-94: the notification of the front end and the return. *)
Definition notify (last_sent : cache) (sigmas adjusted_sigmas : list Q)
    (unique_id : option string) : result :=
  match unique_id with
  | Some uid =>
      if differs (get last_sent uid) sigmas
      then {| result_tensor := adjusted_sigmas;
              sent := [ {| node_id := uid; original := sigmas;
                           adjusted := adjusted_sigmas |} ];
              last_sent_data := (uid, sigmas) :: last_sent |}
      else {| result_tensor := adjusted_sigmas; sent := [];
              last_sent_data := last_sent |}
  | None => {| result_tensor := adjusted_sigmas; sent := [];
               last_sent_data := last_sent |}
  end.

(** The tensor a call returns, or how it fails. *)
Definition tensor_of (o : outcome result) : outcome (list Q) :=
  r <- o ;; Returns (result_tensor r).

End EditorParts.

(** ** Runs of the timestep wrapper *)

Module PerturberRun.
Import Torch TimestepNoise.

Section Run.
Variable C : Type.
Variable rand : Device -> Z -> Q.
Variable interpolate : Tensor -> list nat -> Tensor.
Variable apply_model_func : Tensor -> Timestep -> C -> Tensor.

(** The lines logged by the calls of a run, call by call. *)
Fixpoint run_logs (k : Closure) (steps : list (Args C))
    : list (list StepLog) :=
  match steps with
  | [] => []
  | args :: steps' =>
      let '(k', logs, _) :=
        unet_wrapper C rand interpolate k apply_model_func args in
      logs :: run_logs k' steps'
  end.

End Run.

(** The closure of an attachment after [n] calls. *)
Definition at_step (k : Closure) (n : nat) : Closure :=
  {| stored_mode := stored_mode k;
     stored_strength := stored_strength k;
     stored_seed := stored_seed k;
     stored_start := stored_start k;
     stored_end := stored_end k;
     stored_sigmas := stored_sigmas k;
     stored_total_steps := stored_total_steps k;
     stored_mask := stored_mask k;
     step_counter := n |}.

(** All elements of a timestep tensor. *)
Definition elements (t : Timestep) : list Q := first t :: rest t.




(** Whether a step at noise level [sigma_val] falls in the window of [k]. *)
Definition in_range (k : Closure) (sigma_val : Q) : bool :=
  let progress :=
    progress_of (matched_idx (stored_sigmas k) sigma_val)
      (stored_total_steps k) in
  Qle_bool (stored_start k) progress && Qle_bool progress (stored_end k).

End PerturberRun.

(** ** Well-formed tensors and shapes that broadcast *)

Module TensorShapes.
Import Torch.

(** The data of the tensor fill its shape. *)
Definition well_formed (t : Tensor) : Prop :=
  List.length (data t) = numel (shape t).

(** A tensor of shape [src] broadcasts to the shape [tgt] of the other
    operand: every dimension agrees or is 1 in [src]. *)
Definition fits (src tgt : list nat) : Prop :=
  Forall2 (fun s t => s = t \/ s = 1%nat) src tgt.

(** Every element of the tensor is [v]. *)
Definition filled (v : R) (t : Tensor) : Prop := Forall (eq v) (data t).

End TensorShapes.

(** ** Schedules *)

Module Schedules.
Local Open Scope Q_scope.

(** A strictly decreasing noise schedule. *)
Definition decreasing (sched : list Q) : Prop :=
  forall i j si sj, (i < j)%nat ->
    nth_error sched i = Some si -> nth_error sched j = Some sj -> sj < si.

End Schedules.

(** * Properties *)

(** ** Comparisons on floats *)

Lemma Qlt_bool_true (a b : Q) : Qlt_bool a b = true <-> (a < b)%Q.
Proof.
  unfold Qlt_bool. rewrite negb_true_iff. split; intro H.
  - apply Qnot_le_lt. intro Hle. apply Qle_bool_iff in Hle. congruence.
  - destruct (Qle_bool b a) eqn:E; [|reflexivity].
    apply Qle_bool_iff in E. exfalso. exact (Qlt_not_le _ _ H E).
Qed.

Lemma Qlt_bool_false (a b : Q) : Qlt_bool a b = false <-> (b <= a)%Q.
Proof.
  unfold Qlt_bool. rewrite negb_false_iff. apply Qle_bool_iff.
Qed.

Lemma py_min_spec (a b : Q) :
  ((b < a)%Q /\ py_min a b = b) \/ ((a <= b)%Q /\ py_min a b = a).
Proof.
  unfold py_min. destruct (Qlt_bool b a) eqn:E.
  - left. split; [apply Qlt_bool_true; exact E | reflexivity].
  - right. split; [apply Qlt_bool_false; exact E | reflexivity].
Qed.

(** ** The sigmas editor *)

Module EditorProofs.
Import SigmasEditor EditorClaims.
Local Open Scope Q_scope.

Lemma Forall2_Qeq_refl (l : list Q) : Forall2 Qeq l l.
Proof. induction l; constructor; [reflexivity | assumption]. Qed.

Lemma last_cons_default (l : list Q) (x d : Q) :
  last l x = last (x :: l) d.
Proof.
  revert x d. induction l as [|y l IH]; intros x d; [reflexivity|].
  destruct l as [|z l]; [reflexivity|].
  change (last (y :: z :: l) x) with (last (z :: l) x).
  change (last (x :: y :: z :: l) d) with (last (z :: l) d).
  rewrite (IH x d). reflexivity.
Qed.

Lemma last_item_cons (x : Q) (l : list Q) :
  last_item (x :: l) = Returns (last (x :: l) 1).
Proof.
  unfold last_item. f_equal. apply last_cons_default.
Qed.


(** Pinning a final element that is already 0 changes no element. *)
Lemma set_last_item_same (x : Q) (l : list Q) :
  last (x :: l) 1 == 0 ->
  exists l', set_last_item (x :: l) 0 = Returns l' /\ Forall2 Qeq l' (x :: l).
Proof.
  intro H. exists (removelast (x :: l) ++ [0]). split; [reflexivity|].
  assert (E : x :: l = removelast (x :: l) ++ [last (x :: l) 1])
    by (apply app_removelast_last; discriminate).
  rewrite E at 2.
  apply Forall2_app; [apply Forall2_Qeq_refl|].
  constructor; [symmetry; exact H | constructor].
Qed.

(** The tail of [adjust_sigmas], from the pinning step on, for a non-empty
    schedule. *)
Lemma adjust_sigmas_from (last_sent : cache) (x : Q) (s : list Q)
    (loaded : option json) (unique_id : option string) (n : nat)
    (a : list Q) :
  len (adjusted_values_of loaded) = Returns n ->
  (if negb (Nat.eqb n (List.length (x :: s)))
   then Returns (x :: s)
   else np_array_float64 (adjusted_values_of loaded)) = Returns a ->
  forall a',
  (if Qeq_bool (last (x :: s) 1) 0 then set_last_item a 0 else Returns a)
    = Returns a' ->
  exists r, adjust_sigmas last_sent (x :: s) loaded unique_id = Returns r /\
            result_tensor r = a'.
Proof.
  intros Hn Ha a' Ha'.
  unfold adjust_sigmas. rewrite Hn. cbn [bind]. rewrite Ha. cbn [bind].
  rewrite last_item_cons. cbn [bind]. rewrite Ha'. cbn [bind].
  destruct unique_id as [uid|].
  - destruct (differs (get last_sent uid) (x :: s));
      eexists; split; reflexivity.
  - eexists; split; reflexivity.
Qed.


(** An unusable adjustment makes the editor take the copy branch. *)
Lemma unusable_copy (x : Q) (s : list Q) (loaded : option json) :
  unusable (x :: s) loaded ->
  exists n, len (adjusted_values_of loaded) = Returns n /\
            negb (Nat.eqb n (List.length (x :: s))) = true.
Proof.
  intros [-> | (l & -> & Hl)].
  - exists 0%nat. split; reflexivity.
  - exists (List.length l). split; [reflexivity|].
    apply negb_true_iff, Nat.eqb_neq. exact Hl.
Qed.

(** C9, as stated, at the empty schedule and an adjustment string that does
    not parse: the editor raises [IndexError] at [sigmas_np[-1]], so it does
    not return the original schedule. *)
Lemma fallback_fails_on_empty_schedule :
  unusable [] None /\
  adjust_sigmas [] [] None None = Raises IndexError /\
  ~ returns_original [] None.
Proof.
  split; [left; reflexivity|]. split; [reflexivity|].
  intro H. destruct (H [] None) as (r & Hr & _). discriminate Hr.
Qed.

(** C9 (amended): for every non-empty input schedule and every adjustment
    string that fails to parse as JSON or parses to a list whose length
    differs from the schedule's, the editor returns, without raising, a
    tensor elementwise equal to the input schedule. *)
Theorem fallback_returns_original (sigmas : list Q) (loaded : option json) :
  sigmas <> [] -> unusable sigmas loaded -> returns_original sigmas loaded.
Proof.
  intros Hne Hun last_sent unique_id.
  destruct sigmas as [|x s]; [congruence|].
  destruct (unusable_copy x s loaded Hun) as (n & Hn & Hcopy).
  destruct (Qeq_bool (last (x :: s) 1) 0) eqn:Hz.
  - apply Qeq_bool_iff in Hz.
    destruct (set_last_item_same x s Hz) as (a' & Hset & Heq).
    destruct (adjust_sigmas_from last_sent x s loaded unique_id n (x :: s))
      with (a' := a') as (r & Hr & Hres).
    + exact Hn.
    + rewrite Hcopy. reflexivity.
    + rewrite Hz. exact Hset.
    + exists r. split; [exact Hr | rewrite Hres; exact Heq].
  - destruct (adjust_sigmas_from last_sent x s loaded unique_id n (x :: s))
      with (a' := x :: s) as (r & Hr & Hres).
    + exact Hn.
    + rewrite Hcopy. reflexivity.
    + rewrite Hz. reflexivity.
    + exists r. split; [exact Hr | rewrite Hres; apply Forall2_Qeq_refl].
Qed.

Lemma fallback_returns_original_witness :
  returns_original [1; 1 # 2; 0] (Some (JArr [JNum 3])).
Proof.
  apply (fallback_returns_original [1; 1 # 2; 0] (Some (JArr [JNum 3]))).
  - discriminate.
  - right. exists [JNum 3]. split; [reflexivity | simpl; lia].
Defined.







End EditorProofs.

(** ** The timestep perturber *)

Module PerturberProofs.
Import Torch TimestepNoise PerturberRun.
Local Open Scope Q_scope.

Lemma below_some (d m : Q) : below d (Some m) = true <-> d < m.
Proof. apply Qlt_bool_true. Qed.

Lemma not_below_some (d m : Q) : below d (Some m) = false <-> m <= d.
Proof. apply Qlt_bool_false. Qed.

(** A difference below another one that is below the bound is below the
    bound. *)
Lemma below_trans (d d' : Q) (md : option Q) :
  d' < d -> below d md = true -> below d' md = true.
Proof.
  destruct md as [m|]; [|reflexivity].
  rewrite !below_some. intros H1 H2. lra.
Qed.

(** A difference below the bound is strictly smaller than one that is not. *)
Lemma below_vs_not (d d' : Q) (md : option Q) :
  below d md = true -> below d' md = false -> d < d'.
Proof.
  destruct md as [m|]; [|discriminate].
  rewrite below_some, not_below_some. intros H1 H2. lra.
Qed.

(** The loop either keeps the index it started with, when no remaining
    difference is below the bound, or ends on the first of the remaining
    elements whose difference is smallest. *)
Lemma scan_spec (l : list Q) (q : Q) :
  forall (i : nat) (md : option Q) (best : nat),
  (scan l q i md best = best /\
   forall s, In s l -> below (Qabs (s - q)) md = false)
  \/
  (exists k s,
     scan l q i md best = (i + k)%nat /\
     nth_error l k = Some s /\
     below (Qabs (s - q)) md = true /\
     forall k' s', nth_error l k' = Some s' ->
       Qabs (s - q) <= Qabs (s' - q) /\
       ((k' < k)%nat -> Qabs (s - q) < Qabs (s' - q))).
Proof.
  induction l as [|x l IH]; intros i md best.
  - left. split; [reflexivity | intros s []].
  - cbn [scan]. destruct (below (Qabs (x - q)) md) eqn:Hx.
    + destruct (IH (S i) (Some (Qabs (x - q))) i)
        as [[Hr Hall] | (k & s & Hr & Hk & Hs & Hmin)].
      * right. exists 0%nat, x. rewrite Hr, Nat.add_0_r.
        repeat split; try assumption; try reflexivity.
        -- destruct k' as [|k']; cbn in H.
           ++ injection H as <-. apply Qle_refl.
           ++ apply nth_error_In, Hall, not_below_some in H. exact H.
        -- intro Hlt. inversion Hlt.
      * right. exists (S k), s. rewrite Hr.
        apply below_some in Hs.
        split; [lia|]. split; [exact Hk|].
        split; [apply (below_trans (Qabs (x - q))); assumption|].
        intros k' s' H. destruct k' as [|k']; cbn in H.
        -- injection H as <-.
           split; [apply Qlt_le_weak; exact Hs | intros _; exact Hs].
        -- destruct (Hmin k' s' H) as [Hle Hlt].
           split; [exact Hle | intro; apply Hlt; lia].
    + destruct (IH (S i) md best)
        as [[Hr Hall] | (k & s & Hr & Hk & Hs & Hmin)].
      * left. split; [exact Hr|].
        intros s [<- | Hin]; [exact Hx | apply Hall; exact Hin].
      * right. exists (S k), s. rewrite Hr.
        split; [lia|]. split; [exact Hk|]. split; [exact Hs|].
        intros k' s' H. destruct k' as [|k']; cbn in H.
        -- injection H as <-.
           pose proof (below_vs_not _ _ md Hs Hx) as Hlt.
           split; [apply Qlt_le_weak; exact Hlt | intros _; exact Hlt].
        -- destruct (Hmin k' s' H) as [Hle Hlt].
           split; [exact Hle | intro; apply Hlt; lia].
Qed.

(** C5: for every schedule and queried noise level, the matched index holds
    a schedule value whose absolute difference to the query is minimal, and
    every lower index holds a strictly larger difference (of equal minimal
    differences the lowest index wins); for the schedule [1.0, 0.5, 0.0] and
    the query 0.49 the matched index is 1 and the progress 0.5. *)
Theorem schedule_matching (sched : list Q) (q : Q) (j : nat) (s : Q)
    (Hj : nth_error sched j = Some s) :
  (exists si,
     nth_error sched (matched_idx sched q) = Some si /\
     Qabs (si - q) <= Qabs (s - q) /\
     ((j < matched_idx sched q)%nat -> Qabs (si - q) < Qabs (s - q))) /\
  matched_idx [1; 1 # 2; 0] (49 # 100) = 1%nat /\
  progress_of (matched_idx [1; 1 # 2; 0] (49 # 100))
    (total_steps [1; 1 # 2; 0]) == 1 # 2.
Proof.
  split; [|split; reflexivity].
  unfold matched_idx.
  destruct (scan_spec sched q 0 None 0)
    as [[_ Hall] | (k & si & Hr & Hk & _ & Hmin)].
  - apply nth_error_In, Hall in Hj. discriminate Hj.
  - rewrite Hr. cbn [Nat.add]. exists si. split; [exact Hk|].
    exact (Hmin j s Hj).
Qed.

Lemma schedule_matching_witness :
  (exists si,
     nth_error [1; 1; 0] (matched_idx [1; 1; 0] 1) = Some si /\
     Qabs (si - 1) <= Qabs (1 - 1) /\
     (Nat.lt 1 (matched_idx [1; 1; 0] 1) -> Qabs (si - 1) < Qabs (1 - 1))) /\
  matched_idx [1; 1 # 2; 0] (49 # 100) = 1%nat /\
  progress_of (matched_idx [1; 1 # 2; 0] (49 # 100))
    (total_steps [1; 1 # 2; 0]) == 1 # 2.
Proof.
  apply (schedule_matching [1; 1; 0] 1 1 1). reflexivity.
Defined.

Lemma clamp01_range (x : Q) : 0 <= clamp01 x /\ clamp01 x <= 1.
Proof.
  unfold clamp01. destruct (Qlt_bool x 0) eqn:E0; [lra|].
  apply Qlt_bool_false in E0.
  destruct (Qlt_bool 1 x) eqn:E1; [lra|].
  apply Qlt_bool_false in E1. lra.
Qed.

(** The flow-mode offset stays inside the headroom on both sides. *)
Lemma actual_delta_range (strength t raw : Q) :
  0 < strength -> 0 <= t -> t <= 1 -> 0 <= raw -> raw < 1 ->
  - py_min strength t <= actual_delta strength t raw /\
  actual_delta strength t raw <= py_min strength (1 - t).
Proof.
  intros Hs Ht0 Ht1 Hr0 Hr1. unfold actual_delta, headroom_up, headroom_down.
  destruct (py_min_spec strength (1 - t)) as [[Hu ->] | [Hu ->]];
  destruct (py_min_spec strength (t - 0)) as [[Hd ->] | [Hd ->]];
  destruct (py_min_spec strength t) as [[Hd' ->] | [Hd' ->]];
  match goal with
  | |- context [Qlt_bool ?a ?b] =>
      destruct (Qlt_bool a b) eqn:E;
      [apply Qlt_bool_true in E | apply Qlt_bool_false in E]
  end;
  split; nra.
Qed.

(** C4: in additive (flow) mode, for every current noise level in [0,1],
    every strength above 0 and every draw in [0,1), the offset lies in
    [-min(strength, level), +min(strength, 1 - level)], the perturbed noise
    level is the clamp to [0,1] of level plus offset, and it lies in
    [0,1]. *)
Theorem flow_perturbation_bounded (rand : Z -> Q) (k : Closure)
    (current_step : nat) (timestep : Timestep) :
  stored_mode k = flow ->
  0 < stored_strength k ->
  0 <= first timestep -> first timestep <= 1 ->
  0 <= rand (stored_seed k + Z.of_nat current_step)%Z ->
  rand (stored_seed k + Z.of_nat current_step)%Z < 1 ->
  let t := first timestep in
  let delta :=
    actual_delta (stored_strength k) t
      (rand (stored_seed k + Z.of_nat current_step)%Z) in
  let t_noisy := first (perturbed rand k current_step timestep) in
  - py_min (stored_strength k) t <= delta /\
  delta <= py_min (stored_strength k) (1 - t) /\
  t_noisy = clamp01 (t + delta) /\
  0 <= t_noisy /\ t_noisy <= 1.
Proof.
  intros Hmode Hs Ht0 Ht1 Hr0 Hr1 t delta t_noisy.
  destruct (actual_delta_range (stored_strength k) t _ Hs Ht0 Ht1 Hr0 Hr1)
    as [Hlo Hhi].
  assert (Hn : t_noisy = clamp01 (t + delta)).
  { unfold t_noisy, perturbed, noisy_timestep. rewrite Hmode. reflexivity. }
  repeat split; try assumption; rewrite Hn; apply clamp01_range.
Qed.

Lemma flow_perturbation_bounded_witness :
  let k := {| stored_mode := flow; stored_strength := 1 # 20;
              stored_seed := 7; stored_start := 0; stored_end := 1 # 2;
              stored_sigmas := [1; 1 # 2; 0]; stored_total_steps := 2;
              stored_mask := None; step_counter := 0 |} in
  let rand := fun _ : Z => 3 # 4 in
  let ts := {| first := 99 # 100; rest := [] |} in
  0 <= first (perturbed rand k 1 ts) /\ first (perturbed rand k 1 ts) <= 1.
Proof.
  intros k rand ts.
  apply (flow_perturbation_bounded rand k 1 ts);
    try reflexivity; vm_compute; intro; discriminate.
Defined.

(** The result without a mask, inside the window, for a seed the generator
    takes: one call of the denoising function, at the perturbed timestep. *)
Lemma unet_wrapper_in_range (C : Type) (rand : Device -> Z -> Q)
    (interpolate : Tensor -> list nat -> Tensor) (k : Closure)
    (apply_model_func : Tensor -> Timestep -> C -> Tensor) (args : Args C) :
  stored_mask k = None ->
  manual_seed (stored_seed k + Z.of_nat (S (step_counter k))) = Returns tt ->
  let progress :=
    progress_of (matched_idx (stored_sigmas k) (first (timestep C args)))
      (stored_total_steps k) in
  Qle_bool (stored_start k) progress && Qle_bool progress (stored_end k)
    = true ->
  snd (unet_wrapper C rand interpolate k apply_model_func args) =
  Returns (apply_model_func (input C args)
             (perturbed (rand (device C args)) k (S (step_counter k))
                (timestep C args))
             (c C args)).
Proof.
  intros Hmask Hseed progress Hin. unfold unet_wrapper. rewrite Hmask.
  cbn [prepare_mask bind tick step_counter]. rewrite Hseed. cbn [bind].
  fold progress. rewrite Hin. reflexivity.
Qed.





End PerturberProofs.

(** ** Tensor statistics *)

Module TorchProofs.
Import Torch.
Local Open Scope R_scope.

Lemma sum_scale (l : list R) (k : R) :
  sum (map (fun x => x * k) l) = sum l * k.
Proof.
  induction l as [|x l IH]; cbn [map sum fold_right]; [ring|].
  fold (sum (map (fun x => x * k) l)). fold (sum l). rewrite IH. ring.
Qed.

Lemma mean_scale (l : list R) (k : R) :
  mean (map (fun x => x * k) l) = mean l * k.
Proof.
  unfold mean. rewrite length_map, sum_scale. unfold Rdiv. ring.
Qed.

Lemma sum_sq_dev_scale (l : list R) (m k : R) :
  sum (map (sq_dev (m * k)) (map (fun x => x * k) l)) =
  sum (map (sq_dev m) l) * (k * k).
Proof.
  induction l as [|x l IH]; cbn [map sum fold_right]; [ring|].
  fold (sum (map (sq_dev (m * k)) (map (fun x => x * k) l))).
  fold (sum (map (sq_dev m) l)). rewrite IH. unfold sq_dev. ring.
Qed.

Lemma sum_sq_dev_nonneg (l : list R) (m : R) : 0 <= sum (map (sq_dev m) l).
Proof.
  induction l as [|x l IH]; cbn [map sum fold_right]; [apply Rle_refl|].
  fold (sum (map (sq_dev m) l)).
  apply Rplus_le_le_0_compat; [|exact IH].
  unfold sq_dev. apply Rle_0_sqr.
Qed.

Lemma std_list_nonneg (l : list R) (s : R) : std_list l = Some s -> 0 <= s.
Proof.
  unfold std_list. destruct (Nat.ltb (List.length l) 2); [discriminate|].
  intro H. injection H as <-. apply sqrt_pos.
Qed.

(** The deviation is homogeneous for a non-negative factor. *)
Lemma std_list_scale (l : list R) (k : R) :
  0 <= k ->
  std_list (map (fun x => x * k) l) =
  option_map (fun s => s * k) (std_list l).
Proof.
  intro Hk. unfold std_list. rewrite length_map.
  destruct (Nat.ltb (List.length l) 2) eqn:E; [reflexivity|].
  apply Nat.ltb_ge in E. cbn [option_map]. f_equal.
  rewrite mean_scale, sum_sq_dev_scale.
  set (S := sum (map (sq_dev (mean l)) l)).
  set (N := INR (List.length l - 1)).
  assert (HN : 0 < N).
  { unfold N. apply lt_0_INR. lia. }
  assert (HS : 0 <= S / N).
  { unfold Rdiv. apply Rmult_le_pos; [apply sum_sq_dev_nonneg|].
    left. apply Rinv_0_lt_compat. exact HN. }
  replace (S * (k * k) / N) with (S / N * (k * k))
    by (unfold Rdiv; ring).
  rewrite sqrt_mult_alt by exact HS.
  rewrite sqrt_square by exact Hk. reflexivity.
Qed.

Lemma std_scale (t : Tensor) (k : R) :
  0 <= k -> std (scale t k) = option_map (fun s => s * k) (std t).
Proof. intro Hk. unfold std, scale. cbn [data]. apply std_list_scale, Hk. Qed.

End TorchProofs.

(** ** The signal injector *)

Module InjectorProofs.
Import Torch NoiseInjection InjectionRun InjectionSteps TorchProofs.

Section Clamp.
Local Open Scope R_scope.

(** The magnitude control either leaves the direction or rescales it. *)
Lemma clamp_direction_cases (fd cfg : Tensor) :
  clamp_direction fd cfg = fd \/ exists k, clamp_direction fd cfg = scale fd k.
Proof.
  unfold clamp_direction.
  destruct (std cfg); [|left; reflexivity].
  destruct (std fd); [|left; reflexivity].
  destruct (Rlt_dec _ _); [right; eexists; reflexivity | left; reflexivity].
Qed.

(** Where a deviation is undefined (fewer than two elements) the comparison
    is false and the direction is left as it is. *)
Lemma clamp_direction_undefined (fd cfg : Tensor) :
  std cfg = None \/ std fd = None -> clamp_direction fd cfg = fd.
Proof.
  unfold clamp_direction. intros [-> | ->]; [reflexivity|].
  destruct (std cfg); reflexivity.
Qed.

(** C3: for every reference tensor and merged guidance tensor, with
    [f] the standard deviation of the feature direction (reference minus
    merged output) and [c] that of the merged output, the direction after
    the magnitude control has standard deviation [min f (3 c)]: never above
    three times [c], and exactly three times [c] when [f] exceeds it.  This
    is the direction before the mask and the effective strength are
    applied. *)
Theorem clamp_bounds_direction (ref merged fd : Tensor) (c f : R) :
  sub ref merged = Returns fd ->
  std merged = Some c ->
  std fd = Some f ->
  std (clamp_direction fd merged) = Some (Rmin f (3 * c)) /\
  (forall f', std (clamp_direction fd merged) = Some f' -> f' <= 3 * c) /\
  (f > 3 * c -> std (clamp_direction fd merged) = Some (3 * c)).
Proof.
  intros _ Hc Hf.
  assert (Hmin : std (clamp_direction fd merged) = Some (Rmin f (3 * c))).
  { unfold clamp_direction. rewrite Hc, Hf.
    pose proof (std_list_nonneg _ _ Hc) as Hc0.
    destruct (Rlt_dec (c * 3) f) as [Hlt | Hge].
    - rewrite std_scale.
      + rewrite Hf. cbn [option_map]. f_equal.
        rewrite Rmin_right by lra. field. lra.
      + apply Rmult_le_pos; [lra|]. left. apply Rinv_0_lt_compat. lra.
    - rewrite Hf. f_equal. rewrite Rmin_left by lra. reflexivity. }
  split; [exact Hmin|]. split.
  - intros f' Hf'. rewrite Hmin in Hf'. injection Hf' as <-. apply Rmin_r.
  - intro Hgt. rewrite Hmin. f_equal. apply Rmin_right. lra.
Qed.

End Clamp.

Lemma clamp_bounds_direction_witness :
  let ref := {| shape := [1; 1; 1; 2]%nat; data := [10; 0]%R |} in
  let merged := {| shape := [1; 1; 1; 2]%nat; data := [1; 0]%R |} in
  let fd := {| shape := [1; 1; 1; 2]%nat; data := [10 - 1; 0 - 0]%R |} in
  exists c f : R,
    std merged = Some c /\ std fd = Some f /\
    std (clamp_direction fd merged) = Some (Rmin f (3 * c)).
Proof.
  intros ref merged fd. eexists. eexists.
  split; [reflexivity|]. split; [reflexivity|].
  apply (clamp_bounds_direction ref merged fd); reflexivity.
Defined.

Section Window.
Local Open Scope Q_scope.
Variable interpolate : Tensor -> list nat -> Tensor.

(** Outside the window the hook returns the merge and logs nothing. *)
Lemma cfg_function_outside (k : Closure) (args : Args) :
  outside (progress_of (first (timestep args)))
          (start_percent k) (end_percent k) = true ->
  cfg_function interpolate k args =
  (tick k,
   cfg_result <- cfg_merge (uncond args) (cond_scale args) (cond args) ;;
   Returns (cfg_result, [])).
Proof.
  intro H. unfold cfg_function. rewrite H. reflexivity.
Qed.

Lemma outside_true (progress s e : Q) :
  outside progress s e = true <-> progress < s \/ e < progress.
Proof.
  unfold outside. rewrite orb_true_iff, !Qlt_bool_true. reflexivity.
Qed.

Lemma output_of_plain (m : outcome Tensor) :
  output (cfg_result <- m ;; Returns (cfg_result, [])) = m.
Proof. destruct m; reflexivity. Qed.

Lemma emitted_of_plain (m : outcome Tensor) :
  emitted (cfg_result <- m ;; Returns (cfg_result, [])) = [].
Proof. destruct m; reflexivity. Qed.

(** C2: for every step whose progress [1 - min(noise level, 1)] is strictly
    below the window's start or strictly above its end, the hook's output is
    exactly [uncond + cond_scale * (cond - uncond)], for all tensors,
    scales, reference signals and masks, and nothing is logged. *)
Theorem outside_window_is_plain_merge (k : Closure) (args : Args) :
  let progress := 1 - py_min (first (timestep args)) 1 in
  progress < start_percent k \/ end_percent k < progress ->
  output (snd (cfg_function interpolate k args)) =
    (d <- sub (cond args) (uncond args) ;;
     add (uncond args) (lscale (Q2R (cond_scale args)) d)) /\
  emitted (snd (cfg_function interpolate k args)) = [].
Proof.
  intros progress H. apply outside_true in H.
  rewrite (cfg_function_outside k args H). cbn [snd].
  split; [apply output_of_plain | apply emitted_of_plain].
Qed.

End Window.

Lemma outside_window_is_plain_merge_witness :
  let t := {| shape := [1; 1; 1; 2]%nat; data := [4; 6]%R |} in
  let u := {| shape := [1; 1; 1; 2]%nat; data := [1; 2]%R |} in
  let k := {| variant := FeatureInj; ref_latent := t; mask_latent := Some u;
              strength := 1 # 5; start_percent := 1 # 2; end_percent := 1;
              step_counter := 0 |} in
  let args := {| cond := t; uncond := u; cond_scale := 7;
                 timestep := {| first := 9 # 10; rest := [] |} |} in
  output (snd (cfg_function (fun x _ => x) k args)) =
    Returns {| shape := [1; 1; 1; 2]%nat;
               data := [1 + Q2R 7 * (4 - 1); 2 + Q2R 7 * (6 - 2)]%R |}.
Proof.
  intros t u k args.
  destruct (outside_window_is_plain_merge (fun x _ => x) k args) as [H _].
  - left. reflexivity.
  - rewrite H. reflexivity.
Defined.

Section Decay.
Local Open Scope Q_scope.

Lemma decay_inside (s e p : Q) :
  s < e -> decay s e p = 1 - (p - s) / (e - s).
Proof.
  intro H. unfold decay. apply Qlt_bool_true in H. rewrite H. reflexivity.
Qed.

Lemma decay_degenerate (s e p : Q) : e <= s -> decay s e p = 1.
Proof.
  intro H. unfold decay. apply Qlt_bool_false in H. rewrite H. reflexivity.
Qed.

(** C7: for every strength above 0 and every window with end above start,
    the effective strength is non-increasing in the progress over the
    window, equals the strength at the window's start and 0 at its end; for
    a window with end not above start the decay is 1. *)
Theorem effective_strength_ramp (str s e : Q) :
  0 < str ->
  (s < e ->
     (forall p1 p2, s <= p1 -> p1 <= p2 -> p2 <= e ->
        effective_strength str s e p2 <= effective_strength str s e p1) /\
     effective_strength str s e s == str /\
     effective_strength str s e e == 0) /\
  (e <= s -> forall p, decay s e p = 1).
Proof.
  intro Hstr. split; [|intros H p; apply decay_degenerate; exact H].
  intro Hse. unfold effective_strength.
  assert (Hpos : 0 < / (e - s)) by (apply Qinv_lt_0_compat; lra).
  split; [|split].
  - intros p1 p2 H1 H12 H2. rewrite !decay_inside by exact Hse.
    unfold Qdiv.
    assert (Hm : (p1 - s) * / (e - s) <= (p2 - s) * / (e - s)).
    { apply Qmult_le_compat_r; lra. }
    apply Qmult_le_l; [exact Hstr | lra].
  - rewrite decay_inside by exact Hse. field. lra.
  - rewrite decay_inside by exact Hse. field. lra.
Qed.

Lemma effective_strength_ramp_witness :
  effective_strength (1 # 5) 0 (3 # 5) (1 # 2)
    <= effective_strength (1 # 5) 0 (3 # 5) (1 # 10) /\
  effective_strength (1 # 5) 0 (3 # 5) 0 == 1 # 5 /\
  effective_strength (1 # 5) 0 (3 # 5) (3 # 5) == 0 /\
  decay (3 # 5) (3 # 5) (3 # 5) = 1.
Proof.
  destruct (effective_strength_ramp (1 # 5) 0 (3 # 5)) as [Hin _];
    [reflexivity|].
  destruct Hin as (Hmono & Hstart & Hend); [reflexivity|].
  destruct (effective_strength_ramp (1 # 5) (3 # 5) (3 # 5)) as [_ Hout];
    [reflexivity|].
  split; [|split; [|split]].
  - apply Hmono; vm_compute; intro; discriminate.
  - exact Hstart.
  - exact Hend.
  - apply Hout. vm_compute; intro; discriminate.
Defined.

End Decay.

Section Logging.
Local Open Scope Q_scope.
Variable interpolate : Tensor -> list nat -> Tensor.

Lemma at_step_self (k : Closure) : at_step k (step_counter k) = k.
Proof. destruct k; reflexivity. Qed.

Lemma run_cons (k : Closure) (args : Args) (steps : list Args) :
  run interpolate k (args :: steps) =
  snd (cfg_function interpolate k args) :: run interpolate (tick k) steps.
Proof. reflexivity. Qed.

(** The call with index [i] of a run is made with the counter advanced [i]
    times. *)
Lemma run_nth (k : Closure) (steps : list Args) :
  forall n i,
  nth_error (run interpolate (at_step k n) steps) i =
  option_map (fun args => snd (cfg_function interpolate (at_step k (n + i)) args))
             (nth_error steps i).
Proof.
  induction steps as [|a steps IH]; intros n i.
  - destruct i; reflexivity.
  - rewrite run_cons. destruct i as [|i].
    + rewrite Nat.add_0_r. reflexivity.
    + cbn [nth_error]. change (tick (at_step k n)) with (at_step k (S n)).
      rewrite IH. rewrite Nat.add_succ_r. reflexivity.
Qed.

Lemma outside_false (progress s e : Q) :
  outside progress s e = false <-> s <= progress /\ progress <= e.
Proof.
  unfold outside. rewrite orb_false_iff, !Qlt_bool_false. reflexivity.
Qed.

Lemma align_mask_presence (k : Closure) (cfg_result : Tensor)
    (current_mask : option Tensor) :
  align_mask interpolate (mask_latent k) cfg_result = Returns current_mask ->
  match current_mask with Some _ => true | None => false end = has_mask k.
Proof.
  unfold align_mask, has_mask. destruct (mask_latent k) as [m|].
  - destruct (align interpolate m cfg_result); cbn [bind];
      intro H; try discriminate H. injection H as <-. reflexivity.
  - intro H. injection H as <-. reflexivity.
Qed.

(** What the part after the range test logs, for the call numbered
    [S n]. *)
Lemma inject_logs (k : Closure) (n : nat) (progress : Q) (cfg_result : Tensor) :
  let r := inject interpolate (at_step k n) (S n) progress cfg_result in
  ((3 <= n)%nat -> emitted r = []) /\
  ((n < 3)%nat -> forall x, r = Returns x -> snd x = [line k (S n) progress]).
Proof.
  unfold inject. cbn [at_step ref_latent mask_latent strength start_percent
                      end_percent variant].
  assert (Hgen : forall m : outcome (Tensor * list StepLog),
            (m = Unmodelled \/ exists e, m = Raises e) ->
            ((3 <= n)%nat -> emitted m = []) /\
            ((n < 3)%nat -> forall x, m = Returns x ->
                            snd x = [line k (S n) progress])).
  { intros m [-> | [e ->]]; split; try reflexivity; intros _ x H;
      discriminate H. }
  destruct (align interpolate (ref_latent k) cfg_result) as [ref|e|];
    cbn [bind]; [|apply Hgen; right; eexists; reflexivity
                 |apply Hgen; left; reflexivity].
  destruct (align_mask interpolate (mask_latent k) cfg_result)
    as [current_mask|e|] eqn:Hmask;
    cbn [bind]; [|apply Hgen; right; eexists; reflexivity
                 |apply Hgen; left; reflexivity].
  destruct (sub ref cfg_result) as [fd|e|];
    cbn [bind]; [|apply Hgen; right; eexists; reflexivity
                 |apply Hgen; left; reflexivity].
  destruct (apply_mask (clamp_direction fd cfg_result) current_mask)
    as [fd'|e|];
    cbn [bind]; [|apply Hgen; right; eexists; reflexivity
                 |apply Hgen; left; reflexivity].
  match goal with
  | |- context [bind ?m _] => destruct m as [injected|e|]
  end;
    cbn [bind]; [|apply Hgen; right; eexists; reflexivity
                 |apply Hgen; left; reflexivity].
  rewrite (align_mask_presence k cfg_result current_mask Hmask).
  split.
  - intro H. cbn [emitted snd].
    destruct (Nat.leb_spec (S n) 3); [lia | reflexivity].
  - intros H x Hx. injection Hx as <-. cbn [snd].
    destruct (Nat.leb_spec n 2); [reflexivity | lia].
Qed.

(** What one call logs, by its number and its progress. *)
Lemma call_logs (k : Closure) (n : nat) (args : Args) :
  let progress := progress_of (first (timestep args)) in
  let r := snd (cfg_function interpolate (at_step k n) args) in
  ((3 <= n)%nat -> emitted r = []) /\
  (outside progress (start_percent k) (end_percent k) = true ->
     emitted r = []) /\
  ((n < 3)%nat ->
     outside progress (start_percent k) (end_percent k) = false ->
     forall x, r = Returns x -> snd x = [line k (S n) progress]).
Proof.
  intros progress r. unfold r, cfg_function. cbn [snd].
  cbn [at_step start_percent end_percent tick step_counter].
  fold progress.
  destruct (cfg_merge (uncond args) (cond_scale args) (cond args))
    as [cfg_result|e|]; cbn [bind];
    [|repeat split; try reflexivity; intros; discriminate
     |repeat split; try reflexivity; intros; discriminate].
  destruct (outside progress (start_percent k) (end_percent k)) eqn:Hout.
  - repeat split; try reflexivity. intros _ H; discriminate H.
  - change (tick (at_step k n)) with (at_step k (S n)).
    pose proof (inject_logs k n progress cfg_result) as [H3 Hlt].
    change (inject interpolate (at_step k n) (S n) progress cfg_result)
      with (inject interpolate (at_step k (S n)) (S n) progress cfg_result)
      in H3, Hlt.
    split; [exact H3|]. split; [intro H; discriminate H|].
    intros Hn _. exact (Hlt Hn).
Qed.

(** C8 (amended): for every attachment of the injector (counter at 0) and
    every sequence of calls, a call among the first three whose progress
    lies inside the window logs, when it returns, exactly one record with
    its step index, progress, effective strength and mask presence; a call
    whose progress lies outside the window logs nothing, although it is
    counted; no call after the third logs anything. *)
Theorem logging_first_three_calls_in_window (k : Closure)
    (steps : list Args) (i : nat) (args : Args) :
  step_counter k = 0%nat ->
  nth_error steps i = Some args ->
  let progress := progress_of (first (timestep args)) in
  exists r,
    nth_error (run interpolate k steps) i = Some r /\
    ((3 <= i)%nat -> emitted r = []) /\
    (progress < start_percent k \/ end_percent k < progress ->
       emitted r = []) /\
    ((i < 3)%nat ->
       start_percent k <= progress -> progress <= end_percent k ->
       forall x, r = Returns x -> snd x = [line k (S i) progress]).
Proof.
  intros Hfresh Hargs progress.
  exists (snd (cfg_function interpolate (at_step k i) args)).
  split.
  - rewrite <- (at_step_self k) at 1. rewrite Hfresh.
    rewrite run_nth, Hargs. reflexivity.
  - destruct (call_logs k i args) as (H3 & Hout & Hin).
    split; [exact H3|]. split.
    + intro H. apply Hout, outside_true. exact H.
    + intros Hi Hs He. apply Hin; [exact Hi|].
      apply outside_false. split; assumption.
Qed.

End Logging.

Section LoggingExamples.
Import Examples.
Local Open Scope Q_scope.

Lemma late_window_run :
  map emitted (run (fun t _ => t) late_closure [step_at 1]) = [[]].
Proof.
  rewrite run_cons. rewrite cfg_function_outside by reflexivity.
  cbn [snd run map]. rewrite emitted_of_plain. reflexivity.
Qed.

(** C8, as stated, at the attachment [late_window] and the single call at
    noise level 1: the progress is 0, below the window's start 0.5, so the
    first call after the attachment logs nothing. *)
Lemma first_call_outside_window_logs_nothing :
  Comfy.sampler_cfg_function late_window = Some late_closure /\
  step_counter late_closure = 0%nat /\ 0 < strength late_closure /\
  map emitted (run (fun t _ => t) late_closure [step_at 1]) = [[]] /\
  ~ logs_by_count (map emitted (run (fun t _ => t) late_closure [step_at 1])).
Proof.
  split; [reflexivity|]. split; [reflexivity|]. split; [reflexivity|].
  split; [exact late_window_run|].
  intro H. rewrite late_window_run in H.
  destruct (H 0%nat [] eq_refl) as [H1 _].
  specialize (H1 ltac:(lia)). discriminate H1.
Qed.

(** The second call of the sample run, at noise level 0.25, returns. *)
Lemma late_window_second_call_returns :
  exists x,
    nth_error (run (fun t _ => t) late_closure [step_at 1; step_at (1 # 4)]) 1
    = Some (Returns x).
Proof.
  cbn [run nth_error]. unfold cfg_function. cbn [snd].
  change (cfg_merge (uncond (step_at (1 # 4))) (cond_scale (step_at (1 # 4)))
            (cond (step_at (1 # 4))))
    with (Returns (sample (0 + Q2R 7 * (1 - 0)) (1 + Q2R 7 * (3 - 1)))).
  cbn [bind]. change (outside _ _ _) with false. cbv iota.
  unfold inject. set (cfg := sample _ _).
  change (align _ _ cfg) with (Returns (sample 2 2)). cbn [bind].
  change (align_mask _ _ cfg) with (@Returns (option Tensor) None).
  cbn [bind].
  change (sub (sample 2 2) cfg)
    with (Returns (sample (2 - (0 + Q2R 7 * (1 - 0)))
                          (2 - (1 + Q2R 7 * (3 - 1))))).
  cbn [bind apply_mask].
  destruct (clamp_direction_cases
              (sample (2 - (0 + Q2R 7 * (1 - 0))) (2 - (1 + Q2R 7 * (3 - 1))))
              cfg) as [-> | [k ->]];
    eexists; reflexivity.
Qed.

Lemma logging_first_three_calls_in_window_witness :
  let k := late_closure in
  let steps := [step_at 1; step_at (1 # 4)] in
  exists x,
    nth_error (run (fun t _ => t) k steps) 1 = Some (Returns x) /\
    snd x = [line k 2 (3 # 4)].
Proof.
  intros k steps.
  destruct (logging_first_three_calls_in_window (fun t _ => t) k steps 1
              (step_at (1 # 4)) eq_refl eq_refl) as (r & Hr & _ & _ & Hin).
  destruct late_window_second_call_returns as (x & Hx).
  exists x. split; [exact Hx|].
  apply Hin.
  - lia.
  - vm_compute. intro; discriminate.
  - vm_compute. intro; discriminate.
  - unfold k, steps in Hr. rewrite Hx in Hr. injection Hr as <-. reflexivity.
Defined.

End LoggingExamples.

End InjectorProofs.

(** ** Attaching with a strength that is not positive *)

Module AttachProofs.
Import Torch Comfy.
Local Open Scope Q_scope.

Lemma clone_same (model : ModelPatcher) : clone model = model.
Proof. destruct model; reflexivity. Qed.

Section Attach.
Variables VAE IMAGE C : Type.
Variable _encode_reference : VAE -> IMAGE -> Tensor.
Variable rand : TimestepNoise.Device -> Z -> Q.
Variable interpolate : Tensor -> list nat -> Tensor.

(** C1: for every attach call with strength at most 0, the image injector,
    the latent injector and the timestep perturber install nothing and
    return a model handle equal to the input (the perturber a clone of it):
    on a handle that carried no hook, the guidance output of every later
    step is the plain merge and the denoising function is called directly,
    with the timestep it was given. *)
Theorem nonpositive_strength_attaches_nothing (model : ModelPatcher)
    (vae : VAE) (reference_image : IMAGE)
    (reference_latent : LGNoiseInjectionLatent.LATENT)
    (strength start_percent end_percent : Q) (mask : option Tensor)
    (sigmas : list Q) (mode : TimestepNoise.Mode) (seed : Z) :
  strength <= 0 ->
  let m1 := LGNoiseInjection.apply VAE IMAGE _encode_reference model vae
              reference_image strength start_percent end_percent mask in
  let m2 := LGNoiseInjectionLatent.apply model reference_latent strength
              start_percent end_percent in
  let m3 := ZImageTimestepNoise.patch model sigmas mode strength seed
              start_percent end_percent mask in
  (m1 = model /\ m2 = model /\ m3 = clone model /\ m3 = model) /\
  (sampler_cfg_function model = None ->
     forall m args, In m [m1; m2; m3] ->
       guidance interpolate m args =
         (m, NoiseInjection.cfg_merge (NoiseInjection.uncond args)
               (NoiseInjection.cond_scale args) (NoiseInjection.cond args)))
  /\
  (model_function_wrapper model = None ->
     forall m apply_model_func args, In m [m1; m2; m3] ->
       denoise C rand interpolate m apply_model_func args =
         (m, Returns (apply_model_func (TimestepNoise.input C args)
                        (TimestepNoise.timestep C args)
                        (TimestepNoise.c C args)))).
Proof.
  intros Hs m1 m2 m3. apply Qle_bool_iff in Hs.
  assert (E1 : m1 = model).
  { unfold m1, LGNoiseInjection.apply. rewrite Hs. reflexivity. }
  assert (E2 : m2 = model).
  { unfold m2, LGNoiseInjectionLatent.apply. rewrite Hs. reflexivity. }
  assert (E3 : m3 = clone model).
  { unfold m3, ZImageTimestepNoise.patch. rewrite Hs. reflexivity. }
  assert (E3' : m3 = model) by (rewrite E3; apply clone_same).
  split; [repeat split; assumption|].
  rewrite E1, E2, E3'. split.
  - intros Hnone m args Hin.
    assert (m = model) as -> by (cbn in Hin; intuition congruence).
    unfold guidance. rewrite Hnone. reflexivity.
  - intros Hnone m f args Hin.
    assert (m = model) as -> by (cbn in Hin; intuition congruence).
    unfold denoise. rewrite Hnone. reflexivity.
Qed.

End Attach.

Lemma nonpositive_strength_attaches_nothing_witness :
  let model := {| sampler_cfg_function := None;
                  model_function_wrapper := None |} in
  let t := Examples.sample 2 2 in
  ZImageTimestepNoise.patch model [1; 1 # 2; 0] TimestepNoise.flow 0 7 0
    (1 # 2) None = model /\
  LGNoiseInjection.apply unit unit (fun _ _ => t) model tt tt 0 0 (1 # 2) None
    = model /\
  guidance (fun x _ => x) model (Examples.step_at 1) =
    (model, Returns (Examples.sample (0 + Q2R 7 * (1 - 0))
                                     (1 + Q2R 7 * (3 - 1)))).
Proof.
  intros model t.
  destruct (nonpositive_strength_attaches_nothing unit unit unit
              (fun _ _ => t) (fun _ _ => 1 # 2) (fun x _ => x) model tt tt
              {| LGNoiseInjectionLatent.samples := t;
                 LGNoiseInjectionLatent.noise_mask := None |}
              0 0 (1 # 2) None [1; 1 # 2; 0] TimestepNoise.flow 7)
    as ((H1 & _ & _ & H3) & Hg & _).
  - vm_compute. intro; discriminate.
  - split; [exact H3|]. split; [exact H1|].
    rewrite (Hg eq_refl model (Examples.step_at 1)).
    + reflexivity.
    + right. right. left. exact H3.
Defined.

End AttachProofs.

(** ** More on the sigmas editor *)

Module EditorMore.
Import SigmasEditor EditorParts.
Local Open Scope Q_scope.

Lemma adjust_sigmas_split (last_sent : cache) (sigmas : list Q)
    (loaded : option json) (unique_id : option string) :
  adjust_sigmas last_sent sigmas loaded unique_id =
  (a <- adjusted_schedule sigmas loaded ;;
   Returns (notify last_sent sigmas a unique_id)).
Proof.
  unfold adjust_sigmas, adjusted_schedule, notify.
  destruct (len (adjusted_values_of loaded)) as [n|e|]; cbn [bind];
    try reflexivity.
  destruct (if negb (Nat.eqb n (List.length sigmas))
            then Returns sigmas
            else np_array_float64 (adjusted_values_of loaded))
    as [a|e|]; cbn [bind]; try reflexivity.
  destruct (last_item sigmas) as [final|e|]; cbn [bind]; try reflexivity.
  destruct (if Qeq_bool final 0 then set_last_item a 0 else Returns a)
    as [a'|e|]; cbn [bind]; try reflexivity.
  destruct unique_id as [uid|]; [|reflexivity].
  destruct (differs (get last_sent uid) sigmas); reflexivity.
Qed.

Lemma result_tensor_notify (last_sent : cache) (sigmas a : list Q)
    (unique_id : option string) :
  result_tensor (notify last_sent sigmas a unique_id) = a.
Proof.
  unfold notify. destruct unique_id as [uid|]; [|reflexivity].
  destruct (differs (get last_sent uid) sigmas); reflexivity.
Qed.

(** X1: the tensor the editor returns, and the exception it raises when it
    raises, do not depend on the node id or on what was sent before: the
    notification of the front end never changes the result. *)
Theorem result_independent_of_notification (c1 c2 : cache)
    (sigmas : list Q) (loaded : option json) (u1 u2 : option string) :
  tensor_of (adjust_sigmas c1 sigmas loaded u1) =
  tensor_of (adjust_sigmas c2 sigmas loaded u2).
Proof.
  unfold tensor_of. rewrite !adjust_sigmas_split.
  destruct (adjusted_schedule sigmas loaded) as [a|e|]; cbn [bind];
    try reflexivity.
  rewrite !result_tensor_notify. reflexivity.
Qed.

Lemma tuple_eqb_refl (a : list Q) : tuple_eqb a a = true.
Proof.
  induction a as [|x a IH]; [reflexivity|].
  cbn [tuple_eqb]. rewrite IH, andb_true_r. apply Qeq_bool_iff. reflexivity.
Qed.

Lemma get_head (c : cache) (uid : string) (key : list Q) :
  get ((uid, key) :: c) uid = Some key.
Proof. cbn [get]. rewrite String.eqb_refl. reflexivity. Qed.

(** After a call for node [uid] the schedule of that call is the cached
    one. *)
Lemma notify_caches (last_sent : cache) (sigmas a : list Q) (uid : string) :
  differs (get (last_sent_data (notify last_sent sigmas a (Some uid))) uid)
          sigmas = false.
Proof.
  unfold notify. destruct (differs (get last_sent uid) sigmas) eqn:E.
  - cbn [last_sent_data]. rewrite get_head. cbn [differs].
    rewrite tuple_eqb_refl. reflexivity.
  - exact E.
Qed.

Lemma notify_silent (c : cache) (sigmas a : list Q) (uid : string) :
  differs (get c uid) sigmas = false ->
  notify c sigmas a (Some uid) =
  {| result_tensor := a; sent := []; last_sent_data := c |}.
Proof. intro H. unfold notify. rewrite H. reflexivity. Qed.

(** X3: the front end is told once per input schedule.  A call for a node
    that has no cached schedule sends exactly one message, carrying the
    input schedule and the returned tensor; a following call for the same
    node with the same input schedule sends nothing and leaves the cache as
    it is, whatever its adjustment string. *)
Theorem front_end_told_once (last_sent : cache) (sigmas : list Q)
    (loaded loaded' : option json) (uid : string) (r r' : result) :
  get last_sent uid = None ->
  adjust_sigmas last_sent sigmas loaded (Some uid) = Returns r ->
  adjust_sigmas (last_sent_data r) sigmas loaded' (Some uid) = Returns r' ->
  sent r = [ {| node_id := uid; original := sigmas;
                adjusted := result_tensor r |} ] /\
  sent r' = [] /\
  last_sent_data r' = last_sent_data r.
Proof.
  intros Hnew H1 H2. rewrite adjust_sigmas_split in H1, H2.
  destruct (adjusted_schedule sigmas loaded) as [a|e|];
    cbn [bind] in H1; try discriminate H1.
  assert (E1 : r = notify last_sent sigmas a (Some uid)) by congruence.
  subst r. clear H1.
  destruct (adjusted_schedule sigmas loaded') as [a'|e|];
    cbn [bind] in H2; try discriminate H2.
  pose proof (notify_caches last_sent sigmas a uid) as Hc.
  rewrite (notify_silent _ sigmas a' uid Hc) in H2.
  assert (E2 : r' = {| result_tensor := a'; sent := [];
                       last_sent_data :=
                         last_sent_data
                           (notify last_sent sigmas a (Some uid)) |})
    by congruence.
  subst r'. clear H2.
  split; [|split; reflexivity].
  unfold notify. rewrite Hnew. reflexivity.
Qed.

Lemma front_end_told_once_witness :
  exists r r',
    adjust_sigmas [] [1; 1 # 2; 0] None (Some "7"%string) = Returns r /\
    adjust_sigmas (last_sent_data r) [1; 1 # 2; 0]
      (Some (JArr (map JNum [3; 2; 7]))) (Some "7"%string) = Returns r' /\
    List.length (sent r) = 1%nat /\ sent r' = [].
Proof.
  eexists. eexists. split; [reflexivity|]. split; [reflexivity|].
  destruct (front_end_told_once [] [1; 1 # 2; 0] None
              (Some (JArr (map JNum [3; 2; 7]))) "7"%string _ _
              eq_refl eq_refl eq_refl) as (H1 & H2 & _).
  split; [rewrite H1; reflexivity | exact H2].
Defined.

(** X4: what the editor raises.  An adjustment string that parses to
    [null], a boolean or a number raises [TypeError] for every schedule; on
    the empty schedule an adjustment string that fails to parse or parses to
    any list raises [IndexError]. *)
Theorem editor_exceptions (last_sent : cache) (unique_id : option string) :
  (forall sigmas v,
     len v = Raises TypeError ->
     adjust_sigmas last_sent sigmas (Some v) unique_id = Raises TypeError) /\
  adjust_sigmas last_sent [] None unique_id = Raises IndexError /\
  (forall l,
     adjust_sigmas last_sent [] (Some (JArr l)) unique_id = Raises IndexError).
Proof.
  split; [|split].
  - intros sigmas v Hv. unfold adjust_sigmas. cbn [adjusted_values_of].
    rewrite Hv. reflexivity.
  - reflexivity.
  - intro l. destruct l as [|j l]; reflexivity.
Qed.

Lemma editor_exceptions_witness :
  adjust_sigmas [] [1; 0] (Some JNull) None = Raises TypeError /\
  adjust_sigmas [] [] (Some (JArr [JStr "a"; JNum 0])) None
    = Raises IndexError.
Proof.
  destruct (editor_exceptions [] None) as (H1 & _ & H3).
  split; [apply H1; reflexivity | apply H3].
Defined.

End EditorMore.

(** ** More on the timestep perturber *)

Module PerturberMore.
Import Torch TimestepNoise PerturberRun.
Local Open Scope Q_scope.

Lemma py_max_cases (a b : Q) :
  (a < b /\ py_max a b = b) \/ (b <= a /\ py_max a b = a).
Proof.
  unfold py_max. destruct (Qlt_bool a b) eqn:E.
  - left. split; [apply Qlt_bool_true; exact E | reflexivity].
  - right. split; [apply Qlt_bool_false; exact E | reflexivity].
Qed.

(** Without a step the progress is 0. *)
Lemma stepless_progress (sched : list Q) (matched : nat) :
  (List.length sched <= 1)%nat ->
  progress_of matched (total_steps sched) = 0.
Proof.
  intro Hlen. unfold progress_of, total_steps.
  replace (0 <? Z.of_nat (List.length sched) - 1)%Z with false
    by (symmetry; apply Z.ltb_ge; lia).
  reflexivity.
Qed.

(** X5: the progress computed from the matched index always lies in [0,1],
    and a schedule with at most one element (no step) gives progress 0
    instead of a division by zero. *)
Theorem progress_in_unit_interval (sched : list Q) (q : Q) :
  let p := progress_of (matched_idx sched q) (total_steps sched) in
  0 <= p /\ p <= 1 /\ ((List.length sched <= 1)%nat -> p = 0).
Proof.
  intro p. unfold p, progress_of.
  set (x := if (0 <? total_steps sched)%Z then _ else _).
  split; [|split].
  - destruct (py_max_cases 0 (py_min 1 x)) as [[H ->] | [H ->]]; lra.
  - destruct (py_min_spec 1 x) as [[H1 E1] | [H1 E1]]; rewrite E1;
      match goal with
      | |- py_max 0 ?y <= 1 =>
          destruct (py_max_cases 0 y) as [[H ->] | [H ->]]
      end; lra.
  - intro Hlen.
    exact (stepless_progress sched (matched_idx sched q) Hlen).
Qed.

Lemma progress_in_unit_interval_witness :
  progress_of (matched_idx [1] (1 # 3)) (total_steps [1]) = 0.
Proof.
  apply (progress_in_unit_interval [1] (1 # 3)). simpl. lia.
Defined.

Lemma matched_idx_spec (sched : list Q) (q : Q) (j : nat) (s : Q) :
  nth_error sched j = Some s ->
  exists si,
    nth_error sched (matched_idx sched q) = Some si /\
    Qabs (si - q) <= Qabs (s - q) /\
    ((j < matched_idx sched q)%nat -> Qabs (si - q) < Qabs (s - q)).
Proof.
  intro Hj. unfold matched_idx.
  destruct (PerturberProofs.scan_spec sched q 0 None 0)
    as [[_ Hall] | (k & si & Hr & Hk & _ & Hmin)].
  - apply nth_error_In, Hall in Hj. discriminate Hj.
  - rewrite Hr. cbn [Nat.add]. exists si. split; [exact Hk|].
    exact (Hmin j s Hj).
Qed.

Lemma Qabs_zero_eq (x : Q) : Qabs x <= 0 -> x == 0.
Proof.
  intro H. apply Qabs_Qle_condition in H. destruct H as [H1 H2]. lra.
Qed.

(** X6: a noise level that occurs in the schedule is matched to its first
    occurrence: the matched index holds a value equal to the query and is
    not above any index that does. *)
Theorem on_schedule_level_matches_itself (sched : list Q) (q : Q) (j : nat)
    (s : Q) :
  nth_error sched j = Some s -> s == q ->
  (matched_idx sched q <= j)%nat /\
  exists si, nth_error sched (matched_idx sched q) = Some si /\ si == q.
Proof.
  intros Hj Hs.
  destruct (matched_idx_spec sched q j s Hj) as (si & Hi & Hle & Hlt).
  assert (Hz : Qabs (s - q) == 0).
  { assert (E : s - q == 0) by lra. rewrite E. reflexivity. }
  split.
  - destruct (Nat.le_gt_cases (matched_idx sched q) j) as [H | H];
      [exact H|].
    specialize (Hlt H). pose proof (Qabs_nonneg (si - q)). lra.
  - exists si. split; [exact Hi|].
    assert (E : si - q == 0) by (apply Qabs_zero_eq; lra). lra.
Qed.

Lemma on_schedule_level_matches_itself_witness :
  Nat.le (matched_idx [1; 1 # 2; 1 # 2; 0] (1 # 2)) 2 /\
  exists si,
    nth_error [1; 1 # 2; 1 # 2; 0] (matched_idx [1; 1 # 2; 1 # 2; 0] (1 # 2))
      = Some si /\ si == 1 # 2.
Proof.
  apply (on_schedule_level_matches_itself [1; 1 # 2; 1 # 2; 0] (1 # 2) 2
           (1 # 2)); reflexivity.
Defined.

Lemma clamp01_id (x : Q) : 0 <= x -> x <= 1 -> clamp01 x = x.
Proof.
  intros H0 H1. unfold clamp01.
  replace (Qlt_bool x 0) with false
    by (symmetry; apply Qlt_bool_false; exact H0).
  replace (Qlt_bool 1 x) with false
    by (symmetry; apply Qlt_bool_false; exact H1).
  reflexivity.
Qed.

(** X7: in flow mode, for a current noise level in [0,1], a strength above 0
    and a draw in [0,1), the final clamp changes nothing: the perturbed
    noise level is exactly the current level plus the offset. *)
Theorem flow_clamp_is_idle (rand : Z -> Q) (k : Closure) (current_step : nat)
    (timestep : Timestep) :
  stored_mode k = flow ->
  0 < stored_strength k ->
  0 <= first timestep -> first timestep <= 1 ->
  0 <= rand (stored_seed k + Z.of_nat current_step)%Z ->
  rand (stored_seed k + Z.of_nat current_step)%Z < 1 ->
  first (perturbed rand k current_step timestep) =
  first timestep +
    actual_delta (stored_strength k) (first timestep)
      (rand (stored_seed k + Z.of_nat current_step)%Z).
Proof.
  intros Hmode Hs Ht0 Ht1 Hr0 Hr1.
  destruct (PerturberProofs.actual_delta_range (stored_strength k)
              (first timestep) _ Hs Ht0 Ht1 Hr0 Hr1) as [Hlo Hhi].
  unfold perturbed, noisy_timestep. rewrite Hmode. cbn [tmap first].
  apply clamp01_id.
  - destruct (py_min_spec (stored_strength k) (first timestep))
      as [[H E] | [H E]]; rewrite E in Hlo; lra.
  - destruct (py_min_spec (stored_strength k) (1 - first timestep))
      as [[H E] | [H E]]; rewrite E in Hhi; lra.
Qed.

Lemma flow_clamp_is_idle_witness :
  let k := {| stored_mode := flow; stored_strength := 1 # 20;
              stored_seed := 7; stored_start := 0; stored_end := 1 # 2;
              stored_sigmas := [1; 1 # 2; 0]; stored_total_steps := 2;
              stored_mask := None; step_counter := 0 |} in
  let rand := fun _ : Z => 3 # 4 in
  let ts := {| first := 99 # 100; rest := [] |} in
  first (perturbed rand k 1 ts) =
  (99 # 100) + actual_delta (1 # 20) (99 # 100) (3 # 4).
Proof.
  intros k rand ts.
  apply (flow_clamp_is_idle rand k 1 ts);
    try reflexivity; vm_compute; intro; discriminate.
Defined.

(** X8: in flow mode every element of the perturbed timestep tensor lies in
    [0,1], for every input tensor, strength and draw. *)
Theorem flow_result_in_unit_interval (rand : Z -> Q) (k : Closure)
    (current_step : nat) (timestep : Timestep) :
  stored_mode k = flow ->
  Forall (fun x => 0 <= x /\ x <= 1)
         (elements (perturbed rand k current_step timestep)).
Proof.
  intro Hmode. unfold perturbed, noisy_timestep, elements. rewrite Hmode.
  cbn [tmap first rest]. constructor; [apply PerturberProofs.clamp01_range|].
  apply Forall_forall. intros x Hx. apply in_map_iff in Hx.
  destruct Hx as (y & <- & _). apply PerturberProofs.clamp01_range.
Qed.

Lemma flow_result_in_unit_interval_witness :
  let k := {| stored_mode := flow; stored_strength := 2;
              stored_seed := 0; stored_start := 0; stored_end := 1;
              stored_sigmas := []; stored_total_steps := -1;
              stored_mask := None; step_counter := 0 |} in
  Forall (fun x => 0 <= x /\ x <= 1)
         (elements (perturbed (fun _ => 5) k 1
                      {| first := 3; rest := [-4; 1 # 2] |})).
Proof.
  intro k. apply (flow_result_in_unit_interval (fun _ => 5) k 1). reflexivity.
Defined.

(** X9: in sigma mode, for a strength and a noise level that are not
    negative and a draw in [0,1), the perturbed noise level is the level
    times a factor in [1 - strength/2, 1 + strength/2); it is not clamped,
    and a level of 0 stays 0. *)
Theorem sigma_perturbation_bounded (rand : Z -> Q) (k : Closure)
    (current_step : nat) (timestep : Timestep) :
  stored_mode k = sigma ->
  0 <= stored_strength k ->
  0 <= first timestep ->
  0 <= rand (stored_seed k + Z.of_nat current_step)%Z ->
  rand (stored_seed k + Z.of_nat current_step)%Z < 1 ->
  let t := first timestep in
  let t_noisy := first (perturbed rand k current_step timestep) in
  t * (1 - stored_strength k / 2) <= t_noisy /\
  t_noisy <= t * (1 + stored_strength k / 2) /\
  (t == 0 -> t_noisy == 0).
Proof.
  intros Hmode Hs Ht Hr0 Hr1 t t_noisy.
  unfold t_noisy, perturbed, noisy_timestep. rewrite Hmode.
  cbn [tmap first]. unfold noise_factor. fold t. fold t in Ht.
  clear t_noisy.
  set (r := rand _) in *. set (s := stored_strength k) in *.
  clearbody r s t.
  assert (E : s / 2 == s * (1 # 2)) by field.
  set (h := s / 2) in *. clearbody h.
  assert (Hu : 0 <= t * s) by (apply Qmult_le_0_compat; assumption).
  assert (Hlo : 0 <= r * (t * s)) by (apply Qmult_le_0_compat; assumption).
  assert (Hhi : 0 <= (1 - r) * (t * s)) by (apply Qmult_le_0_compat; lra).
  assert (Eh : t * h == t * s * (1 # 2)) by (rewrite E; ring).
  assert (En : t * (1 + (r - (1 # 2)) * s)
               == t + r * (t * s) - t * s * (1 # 2)) by ring.
  assert (Eu : (1 - r) * (t * s) == t * s - r * (t * s)) by ring.
  assert (El : t * (1 - h) == t - t * h) by ring.
  assert (Er : t * (1 + h) == t + t * h) by ring.
  split; [|split].
  - lra.
  - lra.
  - intro H0. rewrite H0. ring.
Qed.

Lemma sigma_perturbation_bounded_witness :
  let k := {| stored_mode := sigma; stored_strength := 1 # 10;
              stored_seed := 0; stored_start := 0; stored_end := 1;
              stored_sigmas := [14; 7; 0]; stored_total_steps := 2;
              stored_mask := None; step_counter := 0 |} in
  let t_noisy :=
    first (perturbed (fun _ => 9 # 10) k 1 {| first := 14; rest := [] |}) in
  14 * (1 - (1 # 10) / 2) <= t_noisy /\
  t_noisy <= 14 * (1 + (1 # 10) / 2).
Proof.
  intros k t_noisy.
  destruct (sigma_perturbation_bounded (fun _ => 9 # 10) k 1
              {| first := 14; rest := [] |}) as (H1 & H2 & _);
    try reflexivity; try (vm_compute; intro; discriminate).
  split; assumption.
Defined.

End PerturberMore.

(** ** Broadcasting *)

Module BroadcastProofs.
Import Torch TensorShapes.

Lemma chunks_concat (k size : nat) (l : list R) :
  List.length l = (k * size)%nat -> concat (chunks k size l) = l.
Proof.
  revert l. induction k as [|k IH]; intros l H.
  - destruct l; [reflexivity | discriminate H].
  - cbn [chunks concat]. rewrite IH.
    + apply firstn_skipn.
    + rewrite length_skipn. lia.
Qed.

Lemma chunks_length (k size : nat) (l c : list R) :
  List.length l = (k * size)%nat -> In c (chunks k size l) ->
  List.length c = size.
Proof.
  revert l. induction k as [|k IH]; intros l H Hin; [destruct Hin|].
  cbn [chunks] in Hin. destruct Hin as [<- | Hin].
  - rewrite length_firstn. lia.
  - apply (IH (skipn size l)); [rewrite length_skipn; lia | exact Hin].
Qed.

Lemma chunks_count (k size : nat) (l : list R) :
  List.length (chunks k size l) = k.
Proof.
  revert l. induction k as [|k IH]; intro l; [reflexivity|].
  cbn [chunks List.length]. rewrite IH. reflexivity.
Qed.

Lemma chunks_Forall (P : R -> Prop) (k size : nat) (l c : list R) :
  Forall P l -> In c (chunks k size l) -> Forall P c.
Proof.
  revert l. induction k as [|k IH]; intros l H Hin; [destruct Hin|].
  cbn [chunks] in Hin. destruct Hin as [<- | Hin].
  - apply Forall_forall. intros x Hx.
    rewrite Forall_forall in H. apply H.
    rewrite <- (firstn_skipn size l). apply in_or_app. left. exact Hx.
  - apply (IH (skipn size l)); [|exact Hin].
    apply Forall_forall. intros x Hx.
    rewrite Forall_forall in H. apply H.
    rewrite <- (firstn_skipn size l). apply in_or_app. right. exact Hx.
Qed.

Lemma concat_Forall (P : R -> Prop) (ls : list (list R)) :
  (forall c, In c ls -> Forall P c) -> Forall P (concat ls).
Proof.
  induction ls as [|c ls IH]; intro H; [constructor|].
  cbn [concat]. apply Forall_app. split.
  - apply H. left. reflexivity.
  - apply IH. intros c' Hc'. apply H. right. exact Hc'.
Qed.

Lemma concat_length_uniform (n : nat) (ls : list (list R)) :
  (forall c, In c ls -> List.length c = n) ->
  List.length (concat ls) = (List.length ls * n)%nat.
Proof.
  induction ls as [|c ls IH]; intro H; [reflexivity|].
  cbn [concat List.length]. rewrite length_app, IH.
  - rewrite (H c) by (left; reflexivity). lia.
  - intros c' Hc'. apply H. right. exact Hc'.
Qed.

(** Broadcasting a tensor to its own shape leaves its data. *)
Lemma expand_data_same (s : list nat) :
  forall d, List.length d = numel s -> expand_data s s d = d.
Proof.
  induction s as [|n s IH]; intros d H; [reflexivity|].
  cbn [expand_data]. rewrite Nat.eqb_refl.
  cbn [numel fold_right] in H. fold (numel s) in H.
  rewrite <- (chunks_concat n (numel s) d H) at 2. f_equal.
  rewrite <- (map_id (chunks n (numel s) d)) at 2.
  apply map_ext_in. intros c Hc. apply IH.
  apply (chunks_length n (numel s) d); assumption.
Qed.

(** Broadcasting keeps a property that all elements have. *)
Lemma expand_data_Forall (P : R -> Prop) (src : list nat) :
  forall tgt d, Forall P d -> Forall P (expand_data src tgt d).
Proof.
  induction src as [|s src IH]; intros tgt d H; [exact H|].
  destruct tgt as [|t tgt]; [exact H|].
  cbn [expand_data].
  assert (Hparts : forall c,
            In c (map (expand_data src tgt) (chunks s (numel src) d)) ->
            Forall P c).
  { intros c Hc. apply in_map_iff in Hc. destruct Hc as (c0 & <- & Hc0).
    apply IH. apply (chunks_Forall P s (numel src) d); assumption. }
  destruct (Nat.eqb s t).
  - apply concat_Forall. exact Hparts.
  - apply concat_Forall. intros c Hc. apply repeat_spec in Hc. subst c.
    apply concat_Forall. exact Hparts.
Qed.

(** Broadcasting to a shape the tensor fits fills that shape. *)
Lemma expand_data_length (src : list nat) :
  forall tgt d, fits src tgt -> List.length d = numel src ->
  List.length (expand_data src tgt d) = numel tgt.
Proof.
  induction src as [|s src IH]; intros tgt d Hfit H.
  - inversion Hfit; subst. exact H.
  - inversion Hfit as [|s' t src' tgt' Hst Hrest]; subst.
    cbn [expand_data]. cbn [numel fold_right] in *.
    fold (numel src) in *. fold (numel tgt').
    assert (Hparts : forall c,
              In c (map (expand_data src tgt') (chunks s (numel src) d)) ->
              List.length c = numel tgt').
    { intros c Hc. apply in_map_iff in Hc. destruct Hc as (c0 & <- & Hc0).
      apply IH; [exact Hrest|].
      apply (chunks_length s (numel src) d); assumption. }
    pose proof (concat_length_uniform (numel tgt') _ Hparts) as Hlen.
    rewrite length_map, chunks_count in Hlen.
    destruct (Nat.eqb s t) eqn:E.
    + apply Nat.eqb_eq in E. subst t. exact Hlen.
    + destruct Hst as [-> | ->]; [rewrite Nat.eqb_refl in E; discriminate|].
      rewrite (concat_length_uniform (1 * numel tgt')).
      * rewrite repeat_length. lia.
      * intros c Hc. apply repeat_spec in Hc. subst c. exact Hlen.
Qed.

Lemma fits_refl (s : list nat) : fits s s.
Proof. induction s; constructor; [left; reflexivity | assumption]. Qed.

Lemma fits_length (src tgt : list nat) :
  fits src tgt -> List.length src = List.length tgt.
Proof. intro H. induction H; cbn; congruence. Qed.

Lemma broadcast_shapes_fits (src : list nat) :
  forall tgt, fits src tgt -> broadcast_shapes tgt src = Some tgt.
Proof.
  induction src as [|s src IH]; intros tgt H; inversion H; subst;
    [reflexivity|].
  cbn [broadcast_shapes]. rewrite IH by assumption.
  destruct (Nat.eqb y s) eqn:E; [reflexivity|].
  match goal with
  | Hst : s = y \/ s = 1%nat |- _ => destruct Hst as [-> | ->]
  end.
  - rewrite Nat.eqb_refl in E. discriminate E.
  - rewrite E. reflexivity.
Qed.

Lemma pad_same_rank (n : nat) (s : list nat) :
  n = List.length s -> pad n s = s.
Proof. intros ->. unfold pad. rewrite Nat.sub_diag. reflexivity. Qed.

(** An operation between a well-formed tensor and one that fits its shape
    does not raise; it has the shape of the first and combines the elements
    of the first with the broadcast elements of the second. *)
Lemma binop_fits (f : R -> R -> R) (a b : Tensor) :
  well_formed a -> fits (shape b) (shape a) ->
  binop f a b =
  Returns {| shape := shape a;
             data := map (fun p => f (fst p) (snd p))
                         (combine (data a)
                                  (expand_data (shape b) (shape a) (data b)))
          |}.
Proof.
  intros Ha Hfit. unfold binop, dim.
  rewrite <- (fits_length _ _ Hfit), Nat.max_id.
  rewrite !pad_same_rank by (try reflexivity; apply fits_length; exact Hfit).
  rewrite (broadcast_shapes_fits _ _ Hfit).
  rewrite (expand_data_same (shape a) (data a) Ha). reflexivity.
Qed.

Lemma combine_filled (f : R -> R -> R) (v : R) (l1 l2 : list R) :
  Forall (eq v) l2 -> List.length l2 = List.length l1 ->
  map (fun p => f (fst p) (snd p)) (combine l1 l2) = map (fun x => f x v) l1.
Proof.
  revert l2. induction l1 as [|x l1 IH]; intros l2 H Hlen.
  - destruct l2; reflexivity.
  - destruct l2 as [|y l2]; [discriminate Hlen|].
    inversion H; subst. cbn [combine map fst snd]. f_equal.
    apply IH; [assumption | cbn in Hlen; lia].
Qed.

(** An operation with a tensor that fits and holds [v] everywhere applies
    the operation with [v] to every element of the first operand. *)
Lemma binop_filled (f : R -> R -> R) (v : R) (a b : Tensor) :
  well_formed a -> well_formed b -> fits (shape b) (shape a) ->
  filled v b ->
  binop f a b =
  Returns {| shape := shape a; data := map (fun x => f x v) (data a) |}.
Proof.
  intros Ha Hb Hfit Hv. rewrite (binop_fits f a b Ha Hfit).
  f_equal. f_equal. apply combine_filled.
  - apply expand_data_Forall. exact Hv.
  - rewrite (expand_data_length _ _ _ Hfit Hb). symmetry. exact Ha.
Qed.

End BroadcastProofs.

(** ** The timestep wrapper: masks, exceptions and logging *)

Module WrapperProofs.
Import Torch TensorShapes TimestepNoise PerturberRun BroadcastProofs.

Section Blend.
Local Open Scope R_scope.

Lemma filled_map (g : R -> R) (v : R) (l : list R) :
  Forall (eq v) l -> Forall (eq (g v)) (map g l).
Proof.
  intro H. induction H as [|x l Hx _ IH]; cbn [map]; constructor;
    [subst x; reflexivity | exact IH].
Qed.

Lemma map_to_zero (l : list R) : Forall (eq 0) (map (fun x => x * 0) l).
Proof.
  induction l as [|x l IH]; cbn [map]; constructor; [ring | exact IH].
Qed.

Lemma map_same (g : R -> R) (l : list R) :
  (forall x, g x = x) -> map g l = l.
Proof.
  intro H. rewrite <- (map_id l) at 2. apply map_ext. exact H.
Qed.

(** X10: blending with a mask that is 0 everywhere returns the output for
    the original timestep, and blending with a mask that is 1 everywhere
    returns the output for the perturbed timestep; the mask may have any
    shape that broadcasts to the outputs' shape (as a one-channel mask
    does). *)
Theorem blend_with_constant_mask (result_original result_noisy m : Tensor) :
  shape result_noisy = shape result_original ->
  well_formed result_original -> well_formed result_noisy ->
  well_formed m -> fits (shape m) (shape result_original) ->
  (filled 0 m ->
     blend result_original result_noisy m = Returns result_original) /\
  (filled 1 m ->
     blend result_original result_noisy m = Returns result_noisy).
Proof.
  intros Hshape Ho Hn Hm Hfit.
  assert (Hflip : forall v, filled v m -> filled (1 - v) (rsub 1 m)).
  { intros v Hv. unfold filled, rsub. cbn [data].
    apply (filled_map (fun x => 1 - x)). exact Hv. }
  assert (Hmw : well_formed (rsub 1 m)).
  { unfold well_formed, rsub. cbn [data shape]. rewrite length_map.
    exact Hm. }
  assert (Hfit' : fits (shape m) (shape result_noisy))
    by (rewrite Hshape; exact Hfit).
  split; intro Hv; unfold blend, mul, add.
  - rewrite (binop_filled Rmult (1 - 0) result_original (rsub 1 m) Ho Hmw
               Hfit (Hflip 0 Hv)).
    cbn [bind].
    rewrite (binop_filled Rmult 0 result_noisy m Hn Hm Hfit' Hv).
    cbn [bind].
    rewrite (binop_filled Rplus 0).
    + cbn [shape data]. destruct result_original as [s d]. cbn [shape data].
      f_equal. f_equal. rewrite map_map. apply map_same. intro x. ring.
    + unfold well_formed. cbn [shape data]. rewrite length_map. exact Ho.
    + unfold well_formed. cbn [shape data]. rewrite length_map. exact Hn.
    + cbn [shape]. rewrite Hshape. apply fits_refl.
    + unfold filled. cbn [data]. apply map_to_zero.
  - rewrite (binop_filled Rmult (1 - 1) result_original (rsub 1 m) Ho Hmw
               Hfit (Hflip 1 Hv)).
    cbn [bind].
    rewrite (binop_filled Rmult 1 result_noisy m Hn Hm Hfit' Hv).
    cbn [bind].
    rewrite (binop_fits Rplus).
    + cbn [shape data]. rewrite Hshape. rewrite expand_data_same
        by (rewrite <- Hshape, length_map; exact Hn).
      destruct result_noisy as [s d]. cbn [shape data] in *. subst s.
      f_equal. f_equal.
      assert (E : List.length d = List.length (data result_original))
        by (rewrite Hn; symmetry; exact Ho).
      clear - E. revert d E.
      induction (data result_original) as [|x l IH]; intros d E.
      * destruct d; [reflexivity | discriminate E].
      * destruct d as [|y d]; [discriminate E|].
        cbn [map combine fst snd]. f_equal; [ring|].
        apply IH. cbn in E. lia.
    + unfold well_formed. cbn [shape data]. rewrite length_map. exact Ho.
    + cbn [shape]. rewrite Hshape. apply fits_refl.
Qed.

Lemma blend_with_constant_mask_witness :
  let a := {| shape := [1; 2; 1; 2]%nat; data := [1; 2; 3; 4] |} in
  let b := {| shape := [1; 2; 1; 2]%nat; data := [5; 6; 7; 8] |} in
  blend a b {| shape := [1; 1; 1; 2]%nat; data := [0; 0] |} = Returns a /\
  blend a b {| shape := [1; 1; 1; 2]%nat; data := [1; 1] |} = Returns b.
Proof.
  intros a b.
  assert (Hfit : fits [1; 1; 1; 2]%nat (shape a)).
  { unfold fits.
    repeat (apply Forall2_cons;
            [first [left; reflexivity | right; reflexivity]|]).
    apply Forall2_nil. }
  split.
  - apply (blend_with_constant_mask a b
             {| shape := [1; 1; 1; 2]%nat; data := [0; 0] |});
      try reflexivity; [exact Hfit | repeat constructor].
  - apply (blend_with_constant_mask a b
             {| shape := [1; 1; 1; 2]%nat; data := [1; 1] |});
      try reflexivity; [exact Hfit | repeat constructor].
Defined.

End Blend.

Section Calls.
Local Open Scope Q_scope.
Variable C : Type.
Variable rand : Device -> Z -> Q.
Variable interpolate : Tensor -> list nat -> Tensor.
Variable apply_model_func : Tensor -> Timestep -> C -> Tensor.

Lemma short_input_raises (m : option Tensor) (input_x : Tensor) (t : Tensor) :
  m = Some t -> (dim input_x < 4)%nat ->
  prepare_mask interpolate m input_x = Raises IndexError.
Proof.
  intros -> Hdim. unfold prepare_mask, shape_at, dim in *.
  destruct (shape input_x) as [|a [|b [|h [|w s]]]]; cbn in *;
    try reflexivity. lia.
Qed.

Lemma manual_seed_in_range (seed : Z) :
  (- 2 ^ 63 <= seed)%Z -> (seed <= 2 ^ 64 - 1)%Z ->
  manual_seed seed = Returns tt.
Proof.
  intros Hlo Hhi. unfold manual_seed.
  apply Z.leb_le in Hlo. apply Z.leb_le in Hhi. rewrite Hlo, Hhi.
  reflexivity.
Qed.

Lemma manual_seed_too_large (seed : Z) :
  (2 ^ 64 - 1 < seed)%Z -> manual_seed seed = Raises RuntimeError.
Proof.
  intro H. unfold manual_seed. apply Z.leb_gt in H. rewrite H.
  rewrite andb_false_r. reflexivity.
Qed.

(** X11: where the wrapper raises.  Without a mask it raises only at the
    seeding of the generator: when base seed plus call number lies in the
    generator's seed range the call returns, having called the denoising
    function once, at the perturbed timestep inside the window and at the
    original one outside; when the sum exceeds 0xffffffffffffffff the call
    raises [RuntimeError] before anything is logged and before the denoising
    function is called.  With a mask, an input tensor of fewer than four
    dimensions makes the call raise [IndexError], again before the logging
    and the denoising function, outside the window as well as inside.  A
    raising call is counted all the same. *)
Theorem wrapper_exceptions (k : Closure) (args : Args C) :
  let seed := (stored_seed k + Z.of_nat (S (step_counter k)))%Z in
  (stored_mask k = None ->
     ((- 2 ^ 63 <= seed)%Z -> (seed <= 2 ^ 64 - 1)%Z ->
      snd (unet_wrapper C rand interpolate k apply_model_func args) =
      Returns (apply_model_func (input C args)
                 (if in_range k (first (timestep C args))
                  then perturbed (rand (device C args)) k
                         (S (step_counter k)) (timestep C args)
                  else timestep C args)
                 (c C args))) /\
     ((2 ^ 64 - 1 < seed)%Z ->
      unet_wrapper C rand interpolate k apply_model_func args =
      (tick k, [], Raises RuntimeError))) /\
  (forall m, stored_mask k = Some m -> (dim (input C args) < 4)%nat ->
     unet_wrapper C rand interpolate k apply_model_func args =
     (tick k, [], Raises IndexError)).
Proof.
  intro seed. split.
  - intro Hmask. split.
    + intros Hlo Hhi. unfold unet_wrapper, in_range. rewrite Hmask.
      cbn [prepare_mask bind tick step_counter]. fold seed.
      rewrite (manual_seed_in_range seed Hlo Hhi). cbn [bind].
      destruct (Qle_bool (stored_start k) _ && Qle_bool _ (stored_end k));
        reflexivity.
    + intro Hbig. unfold unet_wrapper. rewrite Hmask.
      cbn [prepare_mask bind tick step_counter]. fold seed.
      rewrite (manual_seed_too_large seed Hbig). reflexivity.
  - intros m Hmask Hdim. unfold unet_wrapper.
    rewrite (short_input_raises _ _ m Hmask Hdim). reflexivity.
Qed.

Lemma run_logs_cons (k : Closure) (args : Args C) (steps : list (Args C)) :
  run_logs C rand interpolate apply_model_func k (args :: steps) =
  snd (fst (unet_wrapper C rand interpolate k apply_model_func args))
  :: run_logs C rand interpolate apply_model_func (tick k) steps.
Proof.
  cbn [run_logs].
  assert (E : fst (fst (unet_wrapper C rand interpolate k apply_model_func
                          args)) = tick k).
  { unfold unet_wrapper.
    match goal with
    | |- context [match ?m with
                  | Returns _ => _ | Raises _ => _ | Unmodelled => _
                  end] => destruct m as [latent_mask|e|]
    end; try reflexivity.
    destruct (negb _); [reflexivity|]. destruct latent_mask; reflexivity. }
  destruct (unet_wrapper C rand interpolate k apply_model_func args)
    as [[k' logs] r]. cbn [fst snd] in *. rewrite E. reflexivity.
Qed.

Lemma run_logs_nth (k : Closure) (steps : list (Args C)) :
  forall n i,
  nth_error (run_logs C rand interpolate apply_model_func (at_step k n) steps)
            i =
  option_map
    (fun args =>
       snd (fst (unet_wrapper C rand interpolate (at_step k (n + i))
                   apply_model_func args)))
    (nth_error steps i).
Proof.
  induction steps as [|a steps IH]; intros n i.
  - destruct i; reflexivity.
  - rewrite run_logs_cons. destruct i as [|i].
    + rewrite Nat.add_0_r. reflexivity.
    + cbn [nth_error]. change (tick (at_step k n)) with (at_step k (S n)).
      rewrite IH, Nat.add_succ_r. reflexivity.
Qed.

Lemma wrapper_at_step_self (k : Closure) : at_step k (step_counter k) = k.
Proof. destruct k; reflexivity. Qed.

(** X12: the wrapper logs by call count, not by window.  In a run from a
    fresh attachment without a mask, a call among the first five whose seed
    (base seed plus call number) lies in the generator's seed range logs
    exactly one record, inside the window or not: it carries the call's
    number, whether the perturbation was applied, and the noise level before
    and after.  A call whose seed exceeds 0xffffffffffffffff logs nothing,
    and no call after the fifth logs anything. *)
Theorem wrapper_logs_first_five_calls (k : Closure) (steps : list (Args C))
    (i : nat) (args : Args C) :
  stored_mask k = None -> step_counter k = 0%nat ->
  nth_error steps i = Some args ->
  let seed := (stored_seed k + Z.of_nat (S i))%Z in
  exists lines,
    nth_error (run_logs C rand interpolate apply_model_func k steps) i
      = Some lines /\
    ((5 <= i)%nat -> lines = []) /\
    ((2 ^ 64 - 1 < seed)%Z -> lines = []) /\
    ((i < 5)%nat -> (- 2 ^ 63 <= seed)%Z -> (seed <= 2 ^ 64 - 1)%Z ->
       exists l, lines = [l] /\
         log_step l = S i /\
         log_applied l = in_range k (first (timestep C args)) /\
         log_t_orig l = first (timestep C args) /\
         log_t_noisy l =
           first (perturbed (rand (device C args)) k (S i)
                    (timestep C args)) /\
         log_has_mask l = false).
Proof.
  intros Hmask Hfresh Hargs seed.
  exists (snd (fst (unet_wrapper C rand interpolate (at_step k i)
                      apply_model_func args))).
  split.
  - rewrite <- (wrapper_at_step_self k) at 1.
    rewrite Hfresh, run_logs_nth, Hargs. reflexivity.
  - unfold unet_wrapper. cbn [at_step stored_mask]. rewrite Hmask.
    cbn [prepare_mask bind tick step_counter at_step stored_seed].
    fold seed.
    assert (E : forall (b : bool) (logs : list StepLog) (x y : Tensor),
              snd (fst (if b then (at_step k (S i), logs, Returns x)
                        else (at_step k (S i), logs, Returns y))) = logs)
      by (intros [] ? ? ?; reflexivity).
    change (tick (at_step k i)) with (at_step k (S i)).
    cbn [stored_mode stored_strength stored_seed stored_start stored_end
         stored_sigmas stored_total_steps].
    split; [|split].
    + intro H. destruct (manual_seed seed) as [[]|e|]; cbn [bind];
        try reflexivity.
      rewrite E. destruct (Nat.leb_spec (S i) 5); [lia | reflexivity].
    + intro Hbig. rewrite (manual_seed_too_large seed Hbig). reflexivity.
    + intros H Hlo Hhi. rewrite (manual_seed_in_range seed Hlo Hhi).
      cbn [bind]. rewrite E.
      destruct (Nat.leb_spec (S i) 5); [|lia].
      eexists. split; [reflexivity|]. repeat split.
Qed.

End Calls.

Local Open Scope Q_scope.

Lemma wrapper_logs_first_five_calls_witness :
  let k := {| stored_mode := flow; stored_strength := 1 # 20;
              stored_seed := 7; stored_start := 1 # 2; stored_end := 1;
              stored_sigmas := [1; 1 # 2; 0]; stored_total_steps := 2;
              stored_mask := None; step_counter := 0 |} in
  let args := {| input := {| shape := [1; 4; 4]%nat; data := [] |};
                 timestep := {| first := 1; rest := [] |};
                 device := cpu; c := tt |} in
  exists l,
    nth_error (run_logs unit (fun _ _ => 1 # 2) (fun t _ => t)
                 (fun x _ _ => x) k [args; args]) 1 = Some [l] /\
    log_step l = 2%nat /\ log_applied l = false.
Proof.
  intros k args.
  destruct (wrapper_logs_first_five_calls unit (fun _ _ => 1 # 2)
              (fun t _ => t) (fun x _ _ => x) k [args; args] 1 args
              eq_refl eq_refl eq_refl) as (lines & Hn & _ & _ & Hin).
  destruct Hin as (l & -> & Hs & Ha & _); [lia | cbn; lia | cbn; lia |].
  exists l. split; [exact Hn|]. split; [exact Hs|]. rewrite Ha. reflexivity.
Defined.

Lemma wrapper_exceptions_witness :
  let k := {| stored_mode := flow; stored_strength := 1 # 20;
              stored_seed := 7; stored_start := 1 # 2; stored_end := 1;
              stored_sigmas := [1; 1 # 2; 0]; stored_total_steps := 2;
              stored_mask :=
                Some {| shape := [2; 2]%nat; data := [1; 1; 0; 0]%R |};
              step_counter := 0 |} in
  let late := {| stored_mode := flow; stored_strength := 1 # 20;
                 stored_seed := 2 ^ 64 - 1; stored_start := 0;
                 stored_end := 1; stored_sigmas := [1; 1 # 2; 0];
                 stored_total_steps := 2; stored_mask := None;
                 step_counter := 0 |} in
  let args := {| input := {| shape := [1; 4; 4]%nat; data := [] |};
                 timestep := {| first := 1; rest := [] |};
                 device := cpu; c := tt |} in
  unet_wrapper unit (fun _ _ => 1 # 2) (fun t _ => t) k (fun x _ _ => x) args
  = (tick k, [], Raises IndexError) /\
  unet_wrapper unit (fun _ _ => 1 # 2) (fun t _ => t) late (fun x _ _ => x)
    args
  = (tick late, [], Raises RuntimeError).
Proof.
  intros k late args. split.
  - apply (wrapper_exceptions unit (fun _ _ => 1 # 2) (fun t _ => t)
             (fun x _ _ => x) k args)
      with (m := {| shape := [2; 2]%nat; data := [1; 1; 0; 0]%R |}).
    + reflexivity.
    + cbn. lia.
  - apply (wrapper_exceptions unit (fun _ _ => 1 # 2) (fun t _ => t)
             (fun x _ _ => x) late args).
    + reflexivity.
    + cbn. lia.
Defined.

End WrapperProofs.

(** ** More on the signal injector *)

Module InjectorMore.
Import Torch TensorShapes NoiseInjection InjectionRun BroadcastProofs.

Section Scalars.
Local Open Scope Q_scope.

(** X13: inside the window the effective strength never leaves
    [0, strength], for every strength that is not negative and every window,
    the one-point window included. *)
Theorem effective_strength_within_strength (str s e p : Q) :
  0 <= str -> s <= p -> p <= e ->
  0 <= effective_strength str s e p /\ effective_strength str s e p <= str.
Proof.
  intros Hstr Hs He. unfold effective_strength, decay.
  destruct (Qlt_bool s e) eqn:E.
  - apply Qlt_bool_true in E.
    assert (Hpos : 0 < / (e - s)) by (apply Qinv_lt_0_compat; lra).
    set (c := / (e - s)) in *.
    assert (H0 : 0 <= (p - s) * c) by (apply Qmult_le_0_compat; lra).
    assert (H1 : (p - s) * c <= (e - s) * c)
      by (apply Qmult_le_compat_r; lra).
    assert (E1 : (e - s) * c == 1) by (unfold c; field; lra).
    unfold Qdiv. fold c.
    assert (Hd0 : 0 <= 1 - (p - s) * c) by lra.
    assert (Hd1 : 1 - (p - s) * c <= 1) by lra.
    set (d := 1 - (p - s) * c) in *. clearbody d.
    split.
    + apply Qmult_le_0_compat; assumption.
    + assert (H : 0 <= str * (1 - d)) by (apply Qmult_le_0_compat; lra).
      assert (E2 : str * (1 - d) == str - str * d) by ring. lra.
  - split; lra.
Qed.

Lemma effective_strength_within_strength_witness :
  0 <= effective_strength (1 # 5) (3 # 5) (3 # 5) (3 # 5) /\
  effective_strength (1 # 5) (3 # 5) (3 # 5) (3 # 5) <= 1 # 5.
Proof.
  apply (effective_strength_within_strength (1 # 5) (3 # 5) (3 # 5) (3 # 5));
    vm_compute; intro; discriminate.
Defined.

(** X14: how the noise level becomes progress.  The progress is never
    negative; every noise level at or above 1 gives progress 0; a level in
    between gives one minus the level; a negative level gives a progress
    above 1. *)
Theorem progress_of_noise_level (sigma : Q) :
  0 <= progress_of sigma /\
  (1 <= sigma -> progress_of sigma == 0) /\
  (sigma <= 1 -> progress_of sigma == 1 - sigma) /\
  (sigma < 0 -> 1 < progress_of sigma).
Proof.
  unfold progress_of.
  destruct (py_min_spec sigma 1) as [[H ->] | [H ->]];
    repeat split; intros; lra.
Qed.

Lemma progress_of_noise_level_witness :
  progress_of 14 == 0 /\ progress_of (1 # 4) == 3 # 4.
Proof.
  destruct (progress_of_noise_level 14) as (_ & H1 & _).
  destruct (progress_of_noise_level (1 # 4)) as (_ & _ & H2 & _).
  split; [apply H1 | rewrite H2; [reflexivity|]];
    vm_compute; intro; discriminate.
Defined.

Variable interpolate : Tensor -> list nat -> Tensor.

(** X15: a window whose end lies below its start is never entered: every
    call returns the plain merge and logs nothing, whatever the noise
    level. *)
Theorem inverted_window_never_injects (k : Closure) (args : Args) :
  end_percent k < start_percent k ->
  output (snd (cfg_function interpolate k args)) =
    cfg_merge (uncond args) (cond_scale args) (cond args) /\
  emitted (snd (cfg_function interpolate k args)) = [].
Proof.
  intro H.
  assert (Hout : outside (progress_of (first (timestep args)))
                         (start_percent k) (end_percent k) = true).
  { apply InjectorProofs.outside_true.
    destruct (Qlt_le_dec (progress_of (first (timestep args)))
                         (start_percent k)) as [Hlt | Hle];
      [left; exact Hlt | right; lra]. }
  rewrite (InjectorProofs.cfg_function_outside interpolate k args Hout).
  cbn [snd].
  split; [apply InjectorProofs.output_of_plain
         | apply InjectorProofs.emitted_of_plain].
Qed.

End Scalars.

Lemma inverted_window_never_injects_witness :
  let k := {| variant := FeatureInj; ref_latent := Examples.sample 2 2;
              mask_latent := None; strength := 1 # 5;
              start_percent := (3 # 5)%Q; end_percent := (1 # 5)%Q;
              step_counter := 0 |} in
  emitted (snd (cfg_function (fun t _ => t) k (Examples.step_at (3 # 5))))
  = [].
Proof.
  intro k.
  apply (inverted_window_never_injects (fun t _ => t) k
           (Examples.step_at (3 # 5))).
  reflexivity.
Defined.

(** X16: both mask preparations turn a mask of shape [h, w] into one of
    shape [1, 1, h, w] and a mask of shape [b, h, w] into one of shape
    [b, 1, h, w], keeping the data; a mask that already has four dimensions
    is left as it is by the latent variant, whereas the image variant gives
    it a fifth. *)
Theorem prepared_mask_shape (mask : Tensor) :
  (forall h w, shape mask = [h; w] ->
     _prepare_mask mask = {| shape := [1; 1; h; w]; data := data mask |} /\
     _prepare_mask_latent mask = _prepare_mask mask) /\
  (forall b h w, shape mask = [b; h; w] ->
     _prepare_mask mask = {| shape := [b; 1; h; w]; data := data mask |} /\
     _prepare_mask_latent mask = _prepare_mask mask) /\
  (dim mask = 4 ->
     _prepare_mask_latent mask = mask /\ dim (_prepare_mask mask) = 5).
Proof.
  destruct mask as [s d]. unfold _prepare_mask, _prepare_mask_latent, dim.
  cbn [shape data]. split; [|split].
  - intros h w ->. split; reflexivity.
  - intros b h w ->. split; reflexivity.
  - intro H4. destruct s as [|a [|b [|h [|w [|x s]]]]]; try discriminate H4.
    split; reflexivity.
Qed.

Lemma prepared_mask_shape_witness :
  _prepare_mask {| shape := [2; 1]; data := [1; 0]%R |} =
    {| shape := [1; 1; 2; 1]; data := [1; 0]%R |} /\
  _prepare_mask_latent {| shape := [1; 1; 2; 1]; data := [1; 0]%R |} =
    {| shape := [1; 1; 2; 1]; data := [1; 0]%R |}.
Proof.
  destruct (prepared_mask_shape {| shape := [2; 1]; data := [1; 0]%R |})
    as (H2 & _ & _).
  destruct (prepared_mask_shape
              {| shape := [1; 1; 2; 1]; data := [1; 0]%R |})
    as (_ & _ & H4).
  split; [apply (H2 2 1 eq_refl) | apply (H4 eq_refl)].
Defined.

Section Direction.
Local Open Scope R_scope.
Variable interpolate : Tensor -> list nat -> Tensor.

(** The magnitude control multiplies the direction by a factor in [0,1]. *)
Lemma clamp_direction_factor (fd cfg : Tensor) :
  exists kappa,
    0 <= kappa <= 1 /\
    shape (clamp_direction fd cfg) = shape fd /\
    data (clamp_direction fd cfg) = map (fun x => x * kappa) (data fd).
Proof.
  assert (Hone : exists kappa, 0 <= kappa <= 1 /\
                   shape fd = shape fd /\
                   data fd = map (fun x => x * kappa) (data fd)).
  { exists 1. split; [lra|]. split; [reflexivity|].
    symmetry. apply WrapperProofs.map_same. intro x. ring. }
  unfold clamp_direction.
  destruct (std cfg) as [c|] eqn:Hc; [|exact Hone].
  destruct (std fd) as [f|] eqn:Hf; [|exact Hone].
  destruct (Rlt_dec (c * 3) f) as [Hlt|_]; [|exact Hone].
  pose proof (TorchProofs.std_list_nonneg _ _ Hc) as Hc0.
  exists (c * 3 / f). split; [|split; reflexivity].
  assert (Hf0 : 0 < f) by lra.
  assert (Hinv : 0 < / f) by (apply Rinv_0_lt_compat; exact Hf0).
  unfold Rdiv. split.
  - apply Rmult_le_pos; lra.
  - apply Rlt_le. apply (Rmult_lt_reg_r f); [exact Hf0|].
    rewrite Rmult_assoc, Rinv_l by lra. lra.
Qed.

(** A tensor that already has the shape of [cfg_result] is used as it
    is. *)
Lemma align_same_shape (t cfg_result : Tensor) :
  shape t = shape cfg_result -> shape cfg_result <> [] ->
  align interpolate t cfg_result = Returns t.
Proof.
  intros Hs Hne. unfold align, shape_eqb. rewrite Hs.
  destruct (list_eq_dec Nat.eq_dec (skipn 2 (shape cfg_result))
              (skipn 2 (shape cfg_result))) as [_|Hn];
    [|contradiction Hn; reflexivity].
  cbn [negb]. unfold shape_at. rewrite Hs.
  destruct (shape cfg_result) as [|b rest]; [congruence|].
  cbn [nth_error bind]. rewrite Nat.eqb_refl. reflexivity.
Qed.

Lemma toward_reference (kappa e : R) (dr : list R) :
  forall dc, List.length dr = List.length dc ->
  map (fun p => fst p + snd p)
      (combine dc
         (map (fun x => x * e)
            (map (fun x => x * kappa)
               (map (fun p => fst p - snd p) (combine dr dc))))) =
  map (fun p => snd p + (fst p - snd p) * (kappa * e)) (combine dr dc).
Proof.
  induction dr as [|r dr IH]; intros dc H.
  - destruct dc; [reflexivity | discriminate H].
  - destruct dc as [|c dc]; [discriminate H|].
    cbn [combine map fst snd]. f_equal; [ring|].
    apply IH. cbn in H. lia.
Qed.

(** X17: without a mask and with a reference of the shape of the merged
    output, the injection does not raise, and every element of its result is
    the merged value moved toward the reference value by the fraction
    [kappa * effective strength] of their difference, where [kappa] in
    [0,1] is the factor of the magnitude control. *)
Theorem injection_moves_toward_reference (k : Closure) (current_step : nat)
    (progress : Q) (cfg_result : Tensor) :
  mask_latent k = None ->
  shape (ref_latent k) = shape cfg_result -> shape cfg_result <> [] ->
  well_formed (ref_latent k) -> well_formed cfg_result ->
  exists kappa logs,
    0 <= kappa <= 1 /\
    inject interpolate k current_step progress cfg_result =
    Returns
      ({| shape := shape cfg_result;
          data :=
            map (fun p =>
                   snd p + (fst p - snd p) *
                     (kappa *
                      Q2R (effective_strength (strength k) (start_percent k)
                             (end_percent k) progress)))
                (combine (data (ref_latent k)) (data cfg_result)) |},
       logs).
Proof.
  intros Hmask Hshape Hne Href Hcfg.
  assert (Hlen : List.length (data (ref_latent k))
                 = List.length (data cfg_result)).
  { unfold well_formed in *. rewrite Href, Hcfg, Hshape. reflexivity. }
  unfold inject. rewrite (align_same_shape _ _ Hshape Hne). cbn [bind].
  rewrite Hmask. cbn [align_mask bind].
  unfold sub. rewrite (binop_fits Rminus (ref_latent k) cfg_result Href)
    by (rewrite Hshape; apply fits_refl).
  cbn [bind]. rewrite Hshape.
  rewrite (expand_data_same _ _ Hcfg).
  set (fd := {| shape := shape cfg_result; data := _ |}).
  destruct (clamp_direction_factor fd cfg_result)
    as (kappa & Hk & Hsh & Hdata).
  exists kappa. eexists. split; [exact Hk|].
  cbn [apply_mask bind]. unfold add.
  rewrite (binop_fits Rplus cfg_result).
  - cbn [bind scale shape data]. rewrite Hsh, Hdata. cbn [fd shape data].
    rewrite expand_data_same.
    + rewrite toward_reference by exact Hlen. reflexivity.
    + rewrite !length_map, length_combine, Hlen, Nat.min_id. exact Hcfg.
  - exact Hcfg.
  - cbn [scale shape]. rewrite Hsh. cbn [fd shape]. apply fits_refl.
Qed.

End Direction.

Lemma injection_moves_toward_reference_witness :
  let k := Examples.late_closure in
  let cfg := Examples.sample 0 1 in
  exists kappa logs,
    (0 <= kappa <= 1)%R /\
    inject (fun t _ => t) k 1 (3 # 4) cfg =
    Returns
      ({| shape := [1; 1; 1; 2];
          data :=
            [ 0 + (2 - 0) * (kappa * Q2R (effective_strength (1 # 5) (1 # 2) 1
                                            (3 # 4)));
              1 + (2 - 1) * (kappa * Q2R (effective_strength (1 # 5) (1 # 2) 1
                                            (3 # 4))) ]%R |},
       logs).
Proof.
  intros k cfg.
  destruct (injection_moves_toward_reference (fun t _ => t) k 1 (3 # 4) cfg)
    as (kappa & logs & Hk & H); try reflexivity; [discriminate|].
  exists kappa, logs. split; [exact Hk | exact H].
Defined.

End InjectorMore.

(** ** Attaching both components *)

Module AttachMore.
Import Torch Comfy.
Local Open Scope Q_scope.

Lemma positive_not_le (x : Q) : 0 < x -> Qle_bool x 0 = false.
Proof.
  intro H. destruct (Qle_bool x 0) eqn:E; [|reflexivity].
  apply Qle_bool_iff in E. lra.
Qed.

(** X18: with strengths above 0 the two components occupy different slots
    of the handle, so they can be attached in either order with the same
    result, and the result carries both hooks with their counters at 0;
    attaching the injector to a handle that already carries one replaces
    it. *)
Theorem attachments_compose (model : ModelPatcher)
    (reference_latent reference_latent' : LGNoiseInjectionLatent.LATENT)
    (strength start_percent end_percent : Q)
    (strength' start_percent' end_percent' : Q)
    (sigmas : list Q) (mode : TimestepNoise.Mode) (noise_strength : Q)
    (seed : Z) (start_p end_p : Q) (mask : option Tensor) :
  0 < strength -> 0 < strength' -> 0 < noise_strength ->
  let inj m := LGNoiseInjectionLatent.apply m reference_latent strength
                 start_percent end_percent in
  let inj' m := LGNoiseInjectionLatent.apply m reference_latent' strength'
                  start_percent' end_percent' in
  let per m := ZImageTimestepNoise.patch m sigmas mode noise_strength seed
                 start_p end_p mask in
  per (inj model) = inj (per model) /\
  (exists k w,
     sampler_cfg_function (per (inj model)) = Some k /\
     model_function_wrapper (per (inj model)) = Some w /\
     NoiseInjection.step_counter k = 0%nat /\
     TimestepNoise.step_counter w = 0%nat) /\
  inj' (inj model) = inj' model /\
  sampler_cfg_function (per model) = sampler_cfg_function model.
Proof.
  intros Hs Hs' Hn inj inj' per.
  unfold inj, inj', per, LGNoiseInjectionLatent.apply,
    ZImageTimestepNoise.patch.
  rewrite (positive_not_le _ Hs), (positive_not_le _ Hs'),
    (positive_not_le _ Hn).
  split; [reflexivity|]. split; [|split; reflexivity].
  eexists. eexists. repeat split.
Qed.

Lemma attachments_compose_witness :
  let model := {| sampler_cfg_function := None;
                  model_function_wrapper := None |} in
  let lat := {| LGNoiseInjectionLatent.samples := Examples.sample 2 2;
                LGNoiseInjectionLatent.noise_mask := None |} in
  ZImageTimestepNoise.patch
    (LGNoiseInjectionLatent.apply model lat (1 # 5) 0 (3 # 5))
    [1; 1 # 2; 0] TimestepNoise.flow (1 # 20) 7 0 (1 # 2) None =
  LGNoiseInjectionLatent.apply
    (ZImageTimestepNoise.patch model [1; 1 # 2; 0] TimestepNoise.flow
       (1 # 20) 7 0 (1 # 2) None)
    lat (1 # 5) 0 (3 # 5).
Proof.
  intros model lat.
  apply (attachments_compose model lat lat (1 # 5) 0 (3 # 5) (1 # 5) 0
           (3 # 5) [1; 1 # 2; 0] TimestepNoise.flow (1 # 20) 7 0 (1 # 2)
           None); reflexivity.
Defined.

End AttachMore.

(** ** Progress along a decreasing schedule *)

Module ScheduleProofs.
Import Torch TimestepNoise PerturberRun Schedules.
Local Open Scope Q_scope.

Lemma closer_to_lower (a b q : Q) :
  b < a -> Qabs (b - q) < Qabs (a - q) -> 2 * q < a + b.
Proof.
  intros Hab H.
  destruct (Qlt_le_dec q b) as [Hq | Hq]; [lra|].
  rewrite (Qabs_neg (b - q)) in H by lra.
  destruct (Qlt_le_dec a q) as [Ha | Ha].
  - rewrite (Qabs_neg (a - q)) in H by lra. lra.
  - rewrite (Qabs_pos (a - q)) in H by lra. lra.
Qed.

Lemma closer_to_upper (a b q : Q) :
  b < a -> Qabs (a - q) <= Qabs (b - q) -> a + b <= 2 * q.
Proof.
  intros Hab H.
  destruct (Qlt_le_dec a q) as [Hq | Hq]; [lra|].
  rewrite (Qabs_pos (a - q)) in H by lra.
  destruct (Qlt_le_dec q b) as [Hb | Hb].
  - rewrite (Qabs_pos (b - q)) in H by lra. lra.
  - rewrite (Qabs_neg (b - q)) in H by lra. lra.
Qed.

Lemma matched_idx_in_range (sched : list Q) (q : Q) :
  sched <> [] ->
  exists s, nth_error sched (matched_idx sched q) = Some s.
Proof.
  intro Hne. destruct sched as [|x sched]; [congruence|].
  destruct (PerturberMore.matched_idx_spec (x :: sched) q 0 x eq_refl)
    as (s & Hs & _).
  exists s. exact Hs.
Qed.

Lemma py_min_mono (a x y : Q) : x <= y -> py_min a x <= py_min a y.
Proof.
  intro H.
  destruct (py_min_spec a x) as [[H1 ->] | [H1 ->]];
  destruct (py_min_spec a y) as [[H2 ->] | [H2 ->]]; lra.
Qed.

Lemma py_max_mono (a x y : Q) : x <= y -> py_max a x <= py_max a y.
Proof.
  intro H.
  destruct (PerturberMore.py_max_cases a x) as [[H1 ->] | [H1 ->]];
  destruct (PerturberMore.py_max_cases a y) as [[H2 ->] | [H2 ->]]; lra.
Qed.

(** The progress does not decrease with the matched index. *)
Lemma progress_of_mono (i j : nat) (total : Z) :
  (i <= j)%nat -> progress_of i total <= progress_of j total.
Proof.
  intro H. unfold progress_of. apply py_max_mono, py_min_mono.
  destruct (0 <? total)%Z eqn:E; [|lra].
  apply Z.ltb_lt in E. unfold Qdiv. apply Qmult_le_compat_r.
  - rewrite <- Zle_Qle. lia.
  - apply Qinv_le_0_compat. change 0 with (inject_Z 0).
    rewrite <- Zle_Qle. lia.
Qed.

(** X19: along a strictly decreasing schedule the matching is monotone: a
    noise level that is not larger is matched to an index that is not
    smaller, so the progress never decreases while the noise level falls. *)
Theorem progress_follows_descent (sched : list Q) (q1 q2 : Q) :
  decreasing sched -> q1 <= q2 ->
  (matched_idx sched q2 <= matched_idx sched q1)%nat /\
  progress_of (matched_idx sched q2) (total_steps sched) <=
  progress_of (matched_idx sched q1) (total_steps sched).
Proof.
  intros Hdec Hq.
  assert (Hidx : (matched_idx sched q2 <= matched_idx sched q1)%nat).
  { destruct sched as [|x sched]; [reflexivity|].
    destruct (Nat.le_gt_cases (matched_idx (x :: sched) q2)
                (matched_idx (x :: sched) q1)) as [H | H]; [exact H|].
    exfalso.
    destruct (matched_idx_in_range (x :: sched) q1) as (a & Ha);
      [discriminate|].
    destruct (matched_idx_in_range (x :: sched) q2) as (b & Hb);
      [discriminate|].
    pose proof (Hdec _ _ a b H Ha Hb) as Hab.
    destruct (PerturberMore.matched_idx_spec (x :: sched) q2 _ a Ha)
      as (b' & Hb' & _ & Hlt).
    rewrite Hb in Hb'. injection Hb' as <-. specialize (Hlt H).
    destruct (PerturberMore.matched_idx_spec (x :: sched) q1 _ b Hb)
      as (a' & Ha' & Hle & _).
    rewrite Ha in Ha'. injection Ha' as <-.
    pose proof (closer_to_lower a b q2 Hab Hlt).
    pose proof (closer_to_upper a b q1 Hab Hle). lra. }
  split; [exact Hidx | apply progress_of_mono; exact Hidx].
Qed.

Lemma decreasing_example : decreasing [1; 1 # 2; 0].
Proof.
  intros i j si sj Hij Hi Hj.
  destruct i as [|[|[|[|i]]]]; destruct j as [|[|[|[|j]]]]; cbn in Hi, Hj;
    try lia; try discriminate;
    injection Hi as <-; injection Hj as <-; reflexivity.
Qed.

Lemma progress_follows_descent_witness :
  progress_of (matched_idx [1; 1 # 2; 0] (4 # 5)) (total_steps [1; 1 # 2; 0])
  <= progress_of (matched_idx [1; 1 # 2; 0] (1 # 5))
       (total_steps [1; 1 # 2; 0]).
Proof.
  apply (progress_follows_descent [1; 1 # 2; 0] (1 # 5) (4 # 5)).
  - exact decreasing_example.
  - vm_compute. intro; discriminate.
Defined.

(** X20: with a schedule of at most one element the window test no longer
    looks at the noise level: for an attachment with strength above 0 every
    step has progress 0 and is perturbed exactly when the window contains
    0. *)
Theorem stepless_schedule_window (model : Comfy.ModelPatcher)
    (sigmas : list Q) (mode : Mode) (noise_strength : Q) (seed : Z)
    (start_percent end_percent : Q) (mask : option Tensor) :
  0 < noise_strength -> (List.length sigmas <= 1)%nat ->
  exists k,
    Comfy.model_function_wrapper
      (ZImageTimestepNoise.patch model sigmas mode noise_strength seed
         start_percent end_percent mask) = Some k /\
    forall sigma_val,
      in_range k sigma_val =
      Qle_bool start_percent 0 && Qle_bool 0 end_percent.
Proof.
  intros Hs Hlen. unfold ZImageTimestepNoise.patch.
  rewrite (AttachMore.positive_not_le _ Hs).
  eexists. split; [reflexivity|].
  intro sigma_val. unfold in_range.
  cbn [stored_sigmas stored_total_steps stored_start stored_end].
  rewrite (PerturberMore.stepless_progress sigmas _ Hlen). reflexivity.
Qed.

Lemma stepless_schedule_window_witness :
  exists k,
    Comfy.model_function_wrapper
      (ZImageTimestepNoise.patch
         {| Comfy.sampler_cfg_function := None;
            Comfy.model_function_wrapper := None |}
         [] flow (1 # 20) 7 0 (1 # 2) None) = Some k /\
    forall sigma_val, in_range k sigma_val = true.
Proof.
  destruct (stepless_schedule_window
              {| Comfy.sampler_cfg_function := None;
                 Comfy.model_function_wrapper := None |}
              [] flow (1 # 20) 7 0 (1 # 2) None) as (k & Hk & Hin).
  - reflexivity.
  - simpl. lia.
  - exists k. split; [exact Hk|]. intro. rewrite Hin. reflexivity.
Defined.

End ScheduleProofs.

(** ** Fitting the reference to the batch *)

Module AlignProofs.
Import Torch TensorShapes NoiseInjection BroadcastProofs.

Section Align.
Variable interpolate : Tensor -> list nat -> Tensor.

Lemma shape_eqb_refl (s : list nat) : shape_eqb s s = true.
Proof.
  unfold shape_eqb. destruct (list_eq_dec Nat.eq_dec s s) as [_|H];
    [reflexivity | contradiction H; reflexivity].
Qed.

(** X21: when no resize is needed, a well-formed reference of four
    dimensions with one sample, or with at least as many samples as the
    merged output, is fitted to the batch size of the merged output: the
    aligned tensor is well-formed, has that batch size and keeps the
    reference's other dimensions. *)
Theorem align_reconciles_batch (t cfg_result : Tensor) (b bx c h w : nat)
    (rest' : list nat) :
  shape t = [b; c; h; w] -> shape cfg_result = bx :: rest' ->
  [h; w] = skipn 1 rest' ->
  well_formed t ->
  b = 1 \/ bx <= b ->
  exists t',
    align interpolate t cfg_result = Returns t' /\
    shape t' = [bx; c; h; w] /\ well_formed t'.
Proof.
  intros Ht Hc Hsp Hwf Hb. unfold align. rewrite Ht, Hc.
  change (skipn 2 [b; c; h; w]) with [h; w].
  change (skipn 2 (bx :: rest')) with (skipn 1 rest').
  rewrite <- Hsp, shape_eqb_refl. cbn [negb].
  unfold shape_at. rewrite Ht, Hc. cbn [nth_error bind].
  unfold well_formed in Hwf. rewrite Ht in Hwf.
  cbn [numel fold_right] in Hwf.
  destruct (Nat.eqb b bx) eqn:E; cbn [negb].
  - apply Nat.eqb_eq in E. subst bx. exists t.
    split; [reflexivity|]. split; [exact Ht|].
    unfold well_formed. rewrite Ht. exact Hwf.
  - apply Nat.eqb_neq in E. destruct (Nat.eqb b 1) eqn:E1.
    + apply Nat.eqb_eq in E1. subst b. unfold expand_batch. rewrite Ht.
      cbn [Nat.eqb]. eexists. split; [reflexivity|].
      unfold well_formed. cbn [shape data]. split; [reflexivity|].
      rewrite (concat_length_uniform (c * (h * (w * 1)))).
      * rewrite repeat_length. reflexivity.
      * intros d Hd. apply repeat_spec in Hd. subst d. lia.
    + apply Nat.eqb_neq in E1. destruct Hb as [Hb | Hb]; [congruence|].
      eexists. split; [reflexivity|].
      unfold truncate_batch, well_formed. cbn [shape data]. rewrite Ht.
      cbn [tl hd]. rewrite Nat.min_l by exact Hb. split; [reflexivity|].
      rewrite length_firstn, Hwf. cbn [numel fold_right].
      apply Nat.min_l. apply Nat.mul_le_mono_r. exact Hb.
Qed.

(** X22: a reference whose batch size lies strictly between 1 and that of
    the merged output is not fitted: the truncation leaves it as it is, and
    the subtraction from the merged output raises [RuntimeError]. *)
Theorem reference_batch_in_between_raises (k : Closure) (current_step : nat)
    (progress : Q) (cfg_result : Tensor) (b bx : nat) (rest : list nat) :
  mask_latent k = None ->
  shape (ref_latent k) = b :: rest -> shape cfg_result = bx :: rest ->
  1 < b -> b < bx ->
  inject interpolate k current_step progress cfg_result
  = Raises RuntimeError.
Proof.
  intros Hmask Ht Hc H1 Hb. unfold inject, align. rewrite Ht, Hc.
  rewrite shape_eqb_refl. cbn [negb]. unfold shape_at. rewrite Ht, Hc.
  cbn [nth_error bind].
  replace (Nat.eqb b bx) with false by (symmetry; apply Nat.eqb_neq; lia).
  replace (Nat.eqb b 1) with false by (symmetry; apply Nat.eqb_neq; lia).
  cbn [negb]. rewrite Hmask. cbn [align_mask bind].
  unfold sub, binop, dim, truncate_batch. cbn [shape]. rewrite Ht, Hc.
  cbn [tl hd List.length]. rewrite Nat.max_id.
  rewrite !pad_same_rank by reflexivity.
  rewrite Nat.min_r by lia.
  cbn [broadcast_shapes]. rewrite (broadcast_shapes_fits rest rest)
    by apply fits_refl.
  replace (Nat.eqb b bx) with false by (symmetry; apply Nat.eqb_neq; lia).
  replace (Nat.eqb b 1) with false by (symmetry; apply Nat.eqb_neq; lia).
  replace (Nat.eqb bx 1) with false by (symmetry; apply Nat.eqb_neq; lia).
  reflexivity.
Qed.

End Align.

Lemma align_reconciles_batch_witness :
  exists t',
    align (fun t _ => t)
      {| shape := [1; 1; 1; 2]; data := [3; 4]%R |}
      {| shape := [2; 1; 1; 2]; data := [0; 0; 0; 0]%R |} = Returns t' /\
    shape t' = [2; 1; 1; 2] /\ well_formed t'.
Proof.
  apply (align_reconciles_batch (fun t _ => t)
           {| shape := [1; 1; 1; 2]; data := [3; 4]%R |}
           {| shape := [2; 1; 1; 2]; data := [0; 0; 0; 0]%R |}
           1 2 1 1 2 [1; 1; 2]); try reflexivity.
  left. reflexivity.
Defined.

Lemma reference_batch_in_between_raises_witness :
  inject (fun t _ => t)
    {| variant := FeatureInj;
       ref_latent := {| shape := [2; 1; 1; 1]; data := [3; 4]%R |};
       mask_latent := None; strength := (1 # 5)%Q;
       start_percent := 0%Q; end_percent := 1%Q; step_counter := 0 |}
    1 (1 # 2)%Q {| shape := [3; 1; 1; 1]; data := [0; 0; 0]%R |}
  = Raises RuntimeError.
Proof.
  apply (reference_batch_in_between_raises (fun t _ => t) _ 1 (1 # 2)%Q
           {| shape := [3; 1; 1; 1]; data := [0; 0; 0]%R |} 2 3 [1; 1; 1]);
    try reflexivity; lia.
Defined.

End AlignProofs.
